(** * go-fingerprint/fingerprint: comparing and rendering acoustic fingerprints

    A shallow embedding of [fingerprint.go] (package [fingerprint]): the four
    exported operations [Compare], [Distance], [ToImage], [ImageDistance] and
    the helpers [hamming] and [int32ToImage], together with the small parts of
    the Go standard library they call ([strconv.FormatInt], [strings.Count],
    [image.NewGray], the [Set] and [At] methods of [image.Gray]).

    Conventions of the embedding:
    - a Go [int32] / [int] / [uint8] value is a [Z]; every arithmetic
      operation writes its wrap-around out ([int32], [int], [uint8] below).
      [int] is the 64-bit [int] of the amd64 and arm64 ports;
    - a slice [[]int32] is a [list Z]; the [nil] slice is the empty list;
    - a [float64] is a [spec_float] of the standard library's IEEE 754
      specification at precision 53 and maximal exponent 1024;
    - a run-time panic (index out of range) is the [Panic] outcome;
    - a Go [error] result is an [option error], [None] being [nil]. *)

From Stdlib Require Import ZArith Lia Bool String Ascii SpecFloat.
From stdpp Require Import base list.

Local Open Scope Z_scope.

(** ** Machine integers *)

Module MachineInt.

(** Two's complement reading of the low [w] bits of [x]. *)
Definition wrap (w x : Z) : Z := (x + 2 ^ (w - 1)) mod 2 ^ w - 2 ^ (w - 1).

Definition int32 (x : Z) : Z := wrap 32 x.
Definition int64 (x : Z) : Z := wrap 64 x.
Definition int (x : Z) : Z := wrap 64 x.
Definition uint8 (x : Z) : Z := x mod 2 ^ 8.

Definition int32_ok (x : Z) : Prop := - 2 ^ 31 <= x < 2 ^ 31.

(** [a ^ b] on [int32]. *)
Definition xor32 (a b : Z) : Z := int32 (Z.lxor a b).
(** [a & b] on [int32]. *)
Definition and32 (a b : Z) : Z := int32 (Z.land a b).
(** [a >> k] on [int32]: the arithmetic shift. *)
Definition shr32 (a k : Z) : Z := int32 (Z.shiftr a k).

End MachineInt.
Export MachineInt.

(** ** Outcomes: a returned value or a run-time panic *)

Inductive outcome (A : Type) : Type :=
| Panic : outcome A
| Ret : A -> outcome A.
Arguments Panic {A}.
Arguments Ret {A} _.

Definition obind {A B : Type} (m : outcome A) (k : A -> outcome B) : outcome B :=
  match m with
  | Panic => Panic
  | Ret a => k a
  end.

Notation "'let!' x ':=' m 'in' k" := (obind m (fun x => k))
  (at level 10, x name, m at level 100, k at level 200).

(** ** The parts of [strconv] and [strings] that [hamming] calls *)

Module GoStrings.

(** The digit loop of [strconv.formatBits] for base 2, on the magnitude
    [u > 0]: most significant digit first. *)
Fixpoint formatBits2 (u : positive) : string :=
  match u with
  | xH => "1"
  | xO q => formatBits2 q ++ "0"
  | xI q => formatBits2 q ++ "1"
  end%string.

(** [strconv.FormatInt(i, 2)]: the magnitude of [i] in binary, with a
    leading minus sign when [i] is negative. *)
Definition FormatInt2 (i : Z) : string :=
  match i with
  | Z0 => "0"
  | Zpos u => formatBits2 u
  | Zneg u => String "-" (formatBits2 u)
  end%string.

(** [strings.Count(s, substr)] for a one-byte [substr]: the number of bytes
    of [s] equal to it. *)
Fixpoint Count (s : string) (c : ascii) : Z :=
  match s with
  | EmptyString => 0
  | String x s' => (if Ascii.eqb x c then 1 else 0) + Count s' c
  end.

End GoStrings.

(** ** float64 *)

Module Float64.

Definition prec : Z := 53.
Definition emax : Z := 1024.

Definition float64 : Type := spec_float.

(** Conversion [float64(z)] of an integer: round to nearest, ties to even. *)
Definition of_int (z : Z) : float64 := binary_normalize prec emax z 0 false.

Definition zero : float64 := S754_zero false.
Definition one : float64 := S754_finite false (2 ^ 52) (-52).

Definition sub (x y : float64) : float64 := SFsub prec emax x y.
Definition div (x y : float64) : float64 := SFdiv prec emax x y.

Definition leb (x y : float64) : bool := SFleb x y.

End Float64.

(** ** The package *)

Inductive error : Set := ErrLength.

Definition bitsperint : Z := 32.

Definition len {A : Type} (s : list A) : Z := Z.of_nat (length s).

(** [hamming]: the number of ['1'] characters in the base-2 text of
    [int64(a ^ b)]. *)
Definition hamming (a b : Z) : Z :=
  GoStrings.Count (GoStrings.FormatInt2 (int64 (xor32 a b))) "1"%char.

(** The loop of [Compare]: [for i, sub := range fprint1 { dist += hamming(sub, fprint2[i]) }],
    entered at index [i] with [rest] still to visit. *)
Fixpoint Compare_loop (fprint2 : list Z) (i : nat) (rest : list Z) (dist : Z)
  : outcome Z :=
  match rest with
  | [] => Ret dist
  | sub :: rest' =>
      match fprint2 !! i with
      | None => Panic
      | Some y => Compare_loop fprint2 (S i) rest' (int (dist + hamming sub y))
      end
  end.

(** The two integers whose quotient [Compare] takes. *)
Definition Compare_divisor (fprint1 : list Z) : Z := int (len fprint1 * bitsperint).

Definition score_of (dist divisor : Z) : Float64.float64 :=
  Float64.sub (Float64.of_int 1)
    (Float64.div (Float64.of_int dist) (Float64.of_int divisor)).

Definition Compare (fprint1 fprint2 : list Z)
  : outcome (Float64.float64 * option error) :=
  if negb (len fprint1 =? len fprint2) then Ret (Float64.of_int 0, Some ErrLength)
  else
    let! dist := Compare_loop fprint2 0 fprint1 0 in
    Ret (score_of dist (Compare_divisor fprint1), None).

(** The loop of [Distance]: [for i, sub := range fprint1 { dist[i] = sub ^ fprint2[i] }]. *)
Fixpoint Distance_loop (fprint2 : list Z) (i : nat) (rest : list Z) (dist : list Z)
  : outcome (list Z) :=
  match rest with
  | [] => Ret dist
  | sub :: rest' =>
      match fprint2 !! i with
      | None => Panic
      | Some y =>
          if decide (i < length dist)%nat
          then Distance_loop fprint2 (S i) rest' (<[i := xor32 sub y]> dist)
          else Panic
      end
  end.

Definition Distance (fprint1 fprint2 : list Z) : outcome (list Z * option error) :=
  if negb (len fprint1 =? len fprint2) then Ret ([], Some ErrLength)
  else
    let! dist := Distance_loop fprint2 0 fprint1 (replicate (length fprint1) 0) in
    Ret (dist, None).

(** ** The parts of [image] and [image/color] that [int32ToImage] calls *)

Module GoImage.

Record Rectangle : Set := { MinX : Z; MinY : Z; MaxX : Z; MaxY : Z }.

(** [image.Rect(x0, y0, x1, y1)]: the corners are put in order. *)
Definition Rect (x0 y0 x1 y1 : Z) : Rectangle :=
  let (x0, x1) := if x1 <? x0 then (x1, x0) else (x0, x1) in
  let (y0, y1) := if y1 <? y0 then (y1, y0) else (y0, y1) in
  {| MinX := x0; MinY := y0; MaxX := x1; MaxY := y1 |}.

Definition Dx (r : Rectangle) : Z := int (MaxX r - MinX r).
Definition Dy (r : Rectangle) : Z := int (MaxY r - MinY r).

(** [Point{x, y}.In(r)]. *)
Definition In (x y : Z) (r : Rectangle) : bool :=
  (MinX r <=? x) && (x <? MaxX r) && (MinY r <=? y) && (y <? MaxY r).

(** [image.Gray]: one byte per pixel, rows of [Stride] bytes. *)
Record Gray : Set := { Pix : list Z; Stride : Z; Bounds : Rectangle }.

(** [image.NewGray(r)]: a zeroed buffer of [1 * Dx * Dy] bytes; [make]
    panics on a negative length. *)
Definition NewGray (r : Rectangle) : outcome Gray :=
  let n := int (int (1 * Dx r) * Dy r) in
  if n <? 0 then Panic
  else Ret {| Pix := replicate (Z.to_nat n) 0;
              Stride := int (1 * Dx r);
              Bounds := r |}.

Definition PixOffset (p : Gray) (x y : Z) : Z :=
  int (int (int (y - MinY (Bounds p)) * Stride p) + int (int (x - MinX (Bounds p)) * 1)).

(** [p.Set(x, y, color.Gray{v})]: a write outside the bounds is dropped;
    indexing [Pix] out of range panics. *)
Definition Set_ (p : Gray) (x y : Z) (v : Z) : outcome Gray :=
  if negb (In x y (Bounds p)) then Ret p
  else
    let i := PixOffset p x y in
    if (0 <=? i) && (i <? len (Pix p))
    then Ret {| Pix := <[Z.to_nat i := v]> (Pix p); Stride := Stride p; Bounds := Bounds p |}
    else Panic.

(** [p.At(x, y)] as a gray level: black outside the bounds. *)
Definition At (p : Gray) (x y : Z) : outcome Z :=
  if negb (In x y (Bounds p)) then Ret 0
  else
    let i := PixOffset p x y in
    if (0 <=? i) && (i <? len (Pix p))
    then match Pix p !! Z.to_nat i with Some v => Ret v | None => Panic end
    else Panic.

Definition white : Z := 255.
Definition black : Z := 0.

End GoImage.

(** The inner loop of [int32ToImage], with [n] iterations left:
    [for ; j < bitsperint; j++ { im.Set(i, j, color.Gray{uint8(sub&1) * 0xFF}); sub >>= 1 }]. *)
Fixpoint column_loop (n : nat) (i j sub : Z) (im : GoImage.Gray) : outcome GoImage.Gray :=
  match n with
  | O => Ret im
  | S n' =>
      let! im' := GoImage.Set_ im i j (uint8 (uint8 (and32 sub 1) * 255)) in
      column_loop n' i (int (j + 1)) (shr32 sub 1) im'
  end.

(** The outer loop of [int32ToImage]: [for i, sub := range s]. *)
Fixpoint image_loop (i : Z) (rest : list Z) (im : GoImage.Gray) : outcome GoImage.Gray :=
  match rest with
  | [] => Ret im
  | sub :: rest' =>
      let! im' := column_loop (Z.to_nat bitsperint) i 0 sub im in
      image_loop (i + 1) rest' im'
  end.

Definition int32ToImage (s : list Z) : outcome GoImage.Gray :=
  let! im := GoImage.NewGray (GoImage.Rect 0 0 (len s) bitsperint) in
  image_loop 0 s im.

Definition ToImage (fprint : list Z) : outcome GoImage.Gray := int32ToImage fprint.

(** [ImageDistance]; its first test compares [len(fprint1)] with itself, as in
    the source. The named results [im], [err] start as [nil]. *)
Definition ImageDistance (fprint1 fprint2 : list Z)
  : outcome (option GoImage.Gray * option error) :=
  if negb (len fprint1 =? len fprint1) then Ret (None, Some ErrLength)
  else
    let! r := Distance fprint1 fprint2 in
    match snd r with
    | Some err => Ret (None, Some err)
    | None =>
        let! im := int32ToImage (fst r) in
        Ret (Some im, None)
    end.

(** ** Well-formed inputs

    A [list Z] stands for a [[]int32] when its elements are in the [int32]
    range and its length is one a slice can have: an [int32] takes four bytes
    and the 64-bit runtime addresses [2 ^ 48] bytes ([heapAddrBits = 48]). *)

Definition max_len : Z := 2 ^ 46.

Definition fingerprint_ok (f : list Z) : Prop :=
  Forall int32_ok f /\ len f <= max_len.

Definition Zsum (l : list Z) : Z := foldr Z.add 0 l.

(** ** The layout of the image of a fingerprint *)

(** The bounds of an image [N] pixels wide and 32 pixels high. *)
Definition frame (N : Z) : GoImage.Rectangle :=
  {| GoImage.MinX := 0; GoImage.MinY := 0; GoImage.MaxX := N; GoImage.MaxY := 32 |}.

(** A [Gray] of width [N] and height 32 over a buffer of [32 * N] bytes. *)
Definition wf_image (N : Z) (im : GoImage.Gray) : Prop :=
  GoImage.Stride im = N /\ GoImage.Bounds im = frame N /\
  len (GoImage.Pix im) = 32 * N.

(** The place of pixel [(i, j)] in the buffer. *)
Definition offset (N i j : Z) : nat := Z.to_nat (j * N + i).

Definition gray_of_bit (b : bool) : Z := if b then GoImage.white else GoImage.black.

Definition is_white (v : Z) : Z := if v =? GoImage.white then 1 else 0.

(** The number of white pixels in the buffer of an image. *)
Definition white_pixels (im : GoImage.Gray) : Z :=
  Zsum (is_white <$> GoImage.Pix im).

(** ** What the loops compute *)

(** The accumulator of [Compare]'s loop, wrap-around included. *)
Definition acc_hamming (dist : Z) (xs ys : list Z) : Z :=
  foldl (fun acc p => int (acc + hamming (fst p) (snd p))) dist (zip xs ys).

Definition total_hamming (xs ys : list Z) : Z := Zsum (zip_with hamming xs ys).

(** ** The similarity score in the words of the specification

    The Hamming distance of two 32-bit values is the number of bit positions
    [0 .. 31] at which they differ; the score is [1 - D / (len * 32)] for the
    total distance [D]. *)

Definition popcount32 (x : Z) : Z :=
  Zsum ((fun j => Z.b2z (Z.testbit x j)) <$> seqZ 0 32).

Definition hamming_spec (a b : Z) : Z := popcount32 (Z.lxor a b).

Definition Compare_spec (a b : list Z) : outcome (Float64.float64 * option error) :=
  if negb (len a =? len b) then Ret (Float64.zero, Some ErrLength)
  else Ret (score_of (Zsum (zip_with hamming_spec a b)) (len a * 32), None).

(** * Facts *)

(** ** float64 arithmetic in the normal range

    What [Compare] needs of IEEE 754 double precision: conversion of an
    integer below [2 ^ 53] is exact, the quotient of two such integers
    [d < N] is a normal number not above one, and subtracting it from one
    gives zero or a normal number below one. *)

Module Float64Facts.
Import Float64.

Lemma digits2_pos_log2 (p : positive) :
  Zpos (digits2_pos p) = Z.log2 (Zpos p) + 1.
Proof.
  induction p as [q IH | q IH | ]; cbn [digits2_pos].
  - rewrite Pos2Z.inj_succ, IH.
    change (Zpos q~1) with (2 * Zpos q + 1).
    rewrite Z.log2_succ_double by lia. lia.
  - rewrite Pos2Z.inj_succ, IH.
    change (Zpos q~0) with (2 * Zpos q).
    rewrite Z.log2_double by lia. lia.
  - reflexivity.
Qed.

Lemma Zdigits2_unique (m k : Z) :
  0 < k -> 2 ^ (k - 1) <= m < 2 ^ k -> Zdigits2 m = k.
Proof.
  intros Hk [Hlo Hhi].
  assert (0 < m) by (pose proof (Z.pow_pos_nonneg 2 (k - 1)); lia).
  destruct m as [ | p | p ]; try lia.
  cbn [Zdigits2]. rewrite digits2_pos_log2.
  rewrite (Z.log2_unique (Zpos p) (k - 1)); [lia | lia | ].
  replace (Z.succ (k - 1)) with k by lia. lia.
Qed.

Lemma fexp_normal (e : Z) : - 1074 <= e - 53 -> fexp prec emax e = e - 53.
Proof. unfold fexp, SpecFloat.emin, prec, emax. lia. Qed.

Lemma shr_1_m (mrs : shr_record) :
  0 <= shr_m mrs -> shr_m (shr_1 mrs) = shr_m mrs / 2.
Proof.
  destruct mrs as [m r s]; cbn [shr_m]; intros Hm.
  destruct m as [ | [q | q | ] | p ]; try lia; cbn [shr_1 shr_m].
  - reflexivity.
  - rewrite Pos2Z.inj_xI. apply Z.div_unique with 1; lia.
  - rewrite Pos2Z.inj_xO. apply Z.div_unique with 0; lia.
  - reflexivity.
Qed.

Lemma iter_shr_1_m (p : positive) : forall mrs : shr_record,
  0 <= shr_m mrs ->
  shr_m (SpecFloat.iter_pos shr_1 p mrs) = shr_m mrs / 2 ^ Zpos p.
Proof.
  induction p as [q IH | q IH | ]; intros mrs Hm; cbn [SpecFloat.iter_pos].
  - assert (H1 : 0 <= shr_m (shr_1 mrs)).
    { rewrite shr_1_m by lia. apply Z.div_pos; lia. }
    assert (H2 : 0 <= shr_m (SpecFloat.iter_pos shr_1 q (shr_1 mrs))).
    { rewrite IH by lia. apply Z.div_pos; lia. }
    rewrite IH, IH, shr_1_m by lia.
    rewrite !Zdiv.Zdiv_Zdiv by lia. f_equal.
    replace (Zpos q~1) with (1 + Zpos q + Zpos q) by lia.
    rewrite !Z.pow_add_r, Z.pow_1_r by lia. ring.
  - assert (H2 : 0 <= shr_m (SpecFloat.iter_pos shr_1 q mrs)).
    { rewrite IH by lia. apply Z.div_pos; lia. }
    rewrite IH, IH by lia.
    rewrite !Zdiv.Zdiv_Zdiv by lia. f_equal.
    replace (Zpos q~0) with (Zpos q + Zpos q) by lia.
    rewrite !Z.pow_add_r by lia. ring.
  - rewrite shr_1_m by lia. reflexivity.
Qed.

Lemma loc_of_shr_record_of_loc (m : Z) (l : location) :
  loc_of_shr_record (shr_record_of_loc m l) = l.
Proof. destruct l as [ | [ | | ] ]; reflexivity. Qed.

Lemma shr_m_of_loc (m : Z) (l : location) : shr_m (shr_record_of_loc m l) = m.
Proof. destruct l as [ | [ | | ] ]; reflexivity. Qed.

Lemma round_nearest_even_bounds (m : Z) (l : location) :
  m <= round_nearest_even m l <= m + 1.
Proof.
  destruct l as [ | [ | | ] ]; cbn [round_nearest_even]; try lia.
  destruct (Z.even m); lia.
Qed.

(** Shifting [mx] (of [53 + n] digits) down to 53 digits: the quotient is
    kept, the location is whatever the shifted-out bits say. *)
Lemma shr_fexp_shift (mx ex : Z) (l : location) (n : Z) :
  0 <= n -> 2 ^ (52 + n) <= mx < 2 ^ (53 + n) -> - 1074 <= ex + n ->
  exists mrs, shr_fexp prec emax mx ex l = (mrs, ex + n) /\
              shr_m mrs = mx / 2 ^ n /\
              (n = 0 -> loc_of_shr_record mrs = l).
Proof.
  intros Hn Hmx Hex.
  assert (0 < mx) by (pose proof (Z.pow_pos_nonneg 2 (52 + n)); lia).
  unfold shr_fexp.
  rewrite (Zdigits2_unique mx (53 + n)) by (try lia; replace (53 + n - 1) with (52 + n) by lia; lia).
  rewrite fexp_normal by lia.
  replace (53 + n + ex - 53 - ex) with n by lia.
  destruct n as [ | p | p ]; try lia; cbn [shr].
  - exists (shr_record_of_loc mx l). rewrite Z.add_0_r, Z.pow_0_r, Z.div_1_r.
    split; [reflexivity | ]. split; [apply shr_m_of_loc | ].
    intros _. apply loc_of_shr_record_of_loc.
  - exists (SpecFloat.iter_pos shr_1 p (shr_record_of_loc mx l)).
    split; [reflexivity | ]. split; [ | lia].
    rewrite iter_shr_1_m by (rewrite shr_m_of_loc; lia).
    rewrite shr_m_of_loc. reflexivity.
Qed.

Lemma div_pow2_bounds (mx n k : Z) :
  0 <= n -> 0 <= k -> 2 ^ (k + n) <= mx < 2 ^ (k + 1 + n) ->
  2 ^ k <= mx / 2 ^ n < 2 ^ (k + 1).
Proof.
  intros Hn Hk [Hlo Hhi].
  rewrite Z.pow_add_r in Hlo, Hhi by lia.
  assert (0 < 2 ^ n) by (apply Z.pow_pos_nonneg; lia).
  split.
  - apply Z.div_le_lower_bound; lia.
  - apply Z.div_lt_upper_bound; lia.
Qed.

(** Rounding a significand of [53 + n] digits (with a location for what
    lies below it) in the normal range: the result is a normal number whose
    significand is the truncated one or its successor. *)
Lemma binary_round_aux_normal (sx : bool) (mx ex : Z) (l : location) (n : Z) :
  0 <= n -> 2 ^ (52 + n) <= mx < 2 ^ (53 + n) ->
  - 1074 <= ex + n -> ex + n < 971 ->
  exists (m : positive) (e : Z),
    binary_round_aux prec emax sx mx ex l = S754_finite sx m e /\
    2 ^ 52 <= Zpos m < 2 ^ 53 /\
    ex + n <= e <= ex + n + 1 /\
    mx / 2 ^ n <= Zpos m * 2 ^ (e - ex - n) <= mx / 2 ^ n + 1 /\
    (n = 0 -> l = loc_Exact -> Zpos m = mx /\ e = ex).
Proof.
  intros Hn Hmx Hlo Hhi.
  unfold binary_round_aux.
  destruct (shr_fexp_shift mx ex l n Hn Hmx Hlo) as (mrs & E1 & Em & El).
  rewrite E1. cbv beta iota.
  pose proof (div_pow2_bounds mx n 52 Hn ltac:(lia) Hmx) as Hm1.
  rewrite <- Em in Hm1.
  pose proof (round_nearest_even_bounds (shr_m mrs) (loc_of_shr_record mrs)) as Hr.
  set (m2 := round_nearest_even (shr_m mrs) (loc_of_shr_record mrs)) in *.
  change (2 ^ (52 + 1)) with (2 ^ 53) in Hm1.
  assert (Hcase : m2 < 2 ^ 53 \/ m2 = 2 ^ 53) by lia.
  destruct Hcase as [Hlt | Heq].
  - destruct (shr_fexp_shift m2 (ex + n) loc_Exact 0) as (mrs2 & E2 & Em2 & _);
      [lia | change (52 + 0) with 52; change (53 + 0) with 53; lia | lia | ].
    rewrite E2. cbv beta iota. rewrite Em2, Z.pow_0_r, Z.div_1_r.
    destruct m2 as [ | p | p ] eqn:Ep; [lia | | lia].
    replace (ex + n + 0 <=? emax - prec) with true
      by (symmetry; apply Z.leb_le; unfold emax, prec; lia).
    exists p, (ex + n). split; [f_equal; lia | ].
    split; [lia | ]. split; [lia | ].
    replace (ex + n - ex - n) with 0 by lia. rewrite Z.pow_0_r, Z.mul_1_r.
    split; [rewrite <- Em; lia | ].
    intros -> ->. split; [ | lia].
    specialize (El eq_refl). subst m2. rewrite El in Ep.
    cbn [round_nearest_even] in Ep. rewrite Em, Z.pow_0_r, Z.div_1_r in Ep.
    congruence.
  - destruct (shr_fexp_shift m2 (ex + n) loc_Exact 1) as (mrs2 & E2 & Em2 & _);
      [lia | rewrite Heq; change (52 + 1) with 53; change (2 ^ (53 + 1)) with (2 * 2 ^ 53); lia | lia | ].
    rewrite E2. cbv beta iota. rewrite Em2, Heq.
    change (2 ^ 53 / 2 ^ 1) with (Zpos (2 ^ 52)).
    replace (ex + n + 1 <=? emax - prec) with true
      by (symmetry; apply Z.leb_le; unfold emax, prec; lia).
    exists (2 ^ 52)%positive, (ex + n + 1). split; [reflexivity | ].
    split; [change (Zpos (2 ^ 52)) with (2 ^ 52); lia | ]. split; [lia | ].
    replace (ex + n + 1 - ex - n) with 1 by lia.
    change (Zpos (2 ^ 52) * 2 ^ 1) with (2 ^ 53).
    split; [rewrite <- Em; lia | ].
    intros -> ->. exfalso.
    specialize (El eq_refl). subst m2. rewrite El in Heq.
    cbn [round_nearest_even] in Heq. lia.
Qed.

Lemma mul_pow2_bounds (z a b : Z) :
  0 <= a -> 0 <= b -> 2 ^ a <= z < 2 ^ (a + 1) ->
  2 ^ (a + b) <= z * 2 ^ b < 2 ^ (a + 1 + b).
Proof.
  intros Ha Hb Hz. rewrite !Z.pow_add_r by lia.
  rewrite Z.pow_add_r in Hz by lia.
  assert (0 < 2 ^ b) by (apply Z.pow_pos_nonneg; lia). nia.
Qed.

Lemma pos_iter_xO (d p : positive) :
  Zpos (Pos.iter xO p d) = Zpos p * 2 ^ Zpos d.
Proof.
  induction d as [ | d IH] using Pos.peano_ind.
  - cbn [Pos.iter]. rewrite Pos2Z.inj_xO. change (2 ^ 1) with 2. ring.
  - rewrite Pos.iter_succ, Pos2Z.inj_xO, IH, Pos2Z.inj_succ, Z.pow_succ_r by lia.
    ring.
Qed.

Lemma shl_align_spec (p : positive) (ex ex' : Z) :
  ex' <= ex ->
  exists q, shl_align p ex ex' = (q, ex') /\ Zpos q = Zpos p * 2 ^ (ex - ex').
Proof.
  intros Hle. unfold shl_align.
  destruct (ex' - ex) as [ | d | d ] eqn:Ed; [ | lia | ].
  - exists p. replace ex' with ex by lia.
    rewrite Z.sub_diag, Z.pow_0_r, Z.mul_1_r. auto.
  - exists (Pos.iter xO p d). split; [reflexivity | ].
    rewrite pos_iter_xO. f_equal. f_equal. lia.
Qed.

Lemma shl_align_id (p : positive) (ex ex' : Z) :
  ex <= ex' -> shl_align p ex ex' = (p, ex).
Proof.
  intros Hle. unfold shl_align.
  destruct (ex' - ex) as [ | d | d ] eqn:Ed; auto; lia.
Qed.

(** Rounding an integer significand [p] of [k] digits at exponent [ex],
    for a result in the normal range. *)
Lemma binary_round_normal (sx : bool) (p : positive) (ex k : Z) :
  0 < k -> 2 ^ (k - 1) <= Zpos p < 2 ^ k ->
  - 1074 <= k + ex - 53 -> k + ex - 53 < 971 ->
  exists (m : positive) (e : Z),
    binary_round prec emax sx p ex = S754_finite sx m e /\
    2 ^ 52 <= Zpos m < 2 ^ 53 /\
    (k <= 53 -> e = k + ex - 53 /\ Zpos m = Zpos p * 2 ^ (53 - k)) /\
    (53 < k ->
     k + ex - 53 <= e <= k + ex - 52 /\
     Zpos m * 2 ^ (e - (k + ex - 53)) <= Zpos p / 2 ^ (k - 53) + 1).
Proof.
  intros Hk Hp Hlo Hhi. unfold binary_round.
  pose proof (Zdigits2_unique (Zpos p) k Hk Hp) as Hd. cbn [Zdigits2] in Hd.
  rewrite Hd, fexp_normal by lia.
  destruct (Z_le_gt_dec k 53) as [Hle | Hgt].
  - destruct (shl_align_spec p ex (k + ex - 53)) as (q & -> & Hq); [lia | ].
    replace (ex - (k + ex - 53)) with (53 - k) in Hq by lia.
    assert (Hqb : 2 ^ (52 + 0) <= Zpos q < 2 ^ (53 + 0)).
    { rewrite Hq.
      replace (52 + 0) with (k - 1 + (53 - k)) by lia.
      replace (53 + 0) with (k - 1 + 1 + (53 - k)) by lia.
      apply mul_pow2_bounds; try lia.
      replace (k - 1 + 1) with k by lia. exact Hp. }
    destruct (binary_round_aux_normal sx (Zpos q) (k + ex - 53) loc_Exact 0)
      as (m & e & -> & Hm & _ & _ & Hex); [lia | exact Hqb | lia | lia | ].
    destruct (Hex eq_refl eq_refl) as [Hmq He].
    exists m, e. split; [reflexivity | ]. split; [exact Hm | ].
    split; [intros _; split; [lia | congruence] | lia].
  - rewrite shl_align_id by lia.
    destruct (binary_round_aux_normal sx (Zpos p) ex loc_Exact (k - 53))
      as (m & e & -> & Hm & He & [_ Hv] & _); [lia | | lia | lia | ].
    { replace (52 + (k - 53)) with (k - 1) by lia.
      replace (53 + (k - 53)) with k by lia. exact Hp. }
    exists m, e. split; [reflexivity | ]. split; [exact Hm | ].
    split; [lia | ]. intros _. split; [lia | ].
    replace (e - (k + ex - 53)) with (e - ex - (k - 53)) by lia. exact Hv.
Qed.

Lemma of_int_0 : of_int 0 = zero.
Proof. reflexivity. Qed.

Lemma of_int_1 : of_int 1 = one.
Proof. reflexivity. Qed.

(** [float64(z)] is exact for [0 < z < 2 ^ 53]: a normal number with the
    value of [z]. *)
Lemma of_int_exact (z k : Z) :
  0 < k <= 53 -> 2 ^ (k - 1) <= z < 2 ^ k ->
  exists m : positive,
    of_int z = S754_finite false m (k - 53) /\
    2 ^ 52 <= Zpos m < 2 ^ 53 /\ Zpos m = z * 2 ^ (53 - k).
Proof.
  intros Hk Hz.
  assert (0 < z) by (pose proof (Z.pow_pos_nonneg 2 (k - 1)); lia).
  destruct z as [ | p | p ]; try lia.
  unfold of_int; cbn [binary_normalize].
  destruct (binary_round_normal false p 0 k) as (m & e & -> & Hm & Hex & _);
    try lia.
  destruct Hex as [-> Hmv]; [lia | ].
  exists m. rewrite Z.add_0_r. auto.
Qed.

Lemma pow2_le_inv (a b : Z) : 0 <= a -> 2 ^ a <= 2 ^ b -> a <= b.
Proof.
  intros Ha H. destruct (Z_lt_le_dec b 0) as [Hb | Hb].
  - rewrite (Z.pow_neg_r 2 b) in H by lia.
    pose proof (Z.pow_pos_nonneg 2 a). lia.
  - apply (Z.pow_le_mono_r_iff 2); lia.
Qed.

Lemma pow2_lt_inv (a b : Z) : 0 <= a -> 2 ^ a < 2 ^ b -> a < b.
Proof.
  intros Ha H. destruct (Z_lt_le_dec b 0) as [Hb | Hb].
  - rewrite (Z.pow_neg_r 2 b) in H by lia.
    pose proof (Z.pow_pos_nonneg 2 a). lia.
  - apply (Z.pow_lt_mono_r_iff 2); lia.
Qed.

Lemma digits_spec (z : Z) :
  0 < z -> exists k, 0 < k /\ 2 ^ (k - 1) <= z < 2 ^ k.
Proof.
  intros Hz. exists (Z.log2 z + 1).
  pose proof (Z.log2_nonneg z). pose proof (Z.log2_spec z Hz) as Hs.
  replace (Z.log2 z + 1 - 1) with (Z.log2 z) by lia.
  replace (Z.log2 z + 1) with (Z.succ (Z.log2 z)) by lia. lia.
Qed.

(** Dividing two normal numbers, the smaller by the larger: the quotient is
    a normal number that does not exceed one. *)
Lemma div_normal (md mN : positive) (ed eN : Z) :
  2 ^ 52 <= Zpos md < 2 ^ 53 -> 2 ^ 52 <= Zpos mN < 2 ^ 53 ->
  ed <= eN -> - 900 <= ed - eN ->
  Zpos md < Zpos mN * 2 ^ (eN - ed) ->
  exists (mq : positive) (eq : Z),
    div (S754_finite false md ed) (S754_finite false mN eN)
    = S754_finite false mq eq /\
    2 ^ 52 <= Zpos mq < 2 ^ 53 /\
    ed - eN - 53 <= eq <= - 52 /\
    Zpos mq <= 2 ^ (- eq).
Proof.
  intros Hmd HmN Hle Hlo Hlt.
  unfold div, SFdiv, SFdiv_core_binary.
  rewrite (Zdigits2_unique (Zpos md) 53), (Zdigits2_unique (Zpos mN) 53)
    by (change (53 - 1) with 52; lia).
  rewrite fexp_normal by lia.
  set (e' := Z.min (53 + ed - (53 + eN) - 53) (ed - eN)).
  assert (He' : e' = ed - eN - 53) by (subst e'; lia).
  clearbody e'. subst e'.
  replace (ed - eN - (ed - eN - 53)) with 53 by lia. cbv iota.
  rewrite Z.shiftl_mul_pow2 by lia.
  destruct (Z.div_eucl (Zpos md * 2 ^ 53) (Zpos mN)) as [q r] eqn:Eqr.
  assert (Hq : q = Zpos md * 2 ^ 53 / Zpos mN)
    by (unfold Z.div; rewrite Eqr; reflexivity).
  clear Eqr. cbn [xorb].
  set (ee := ed - eN - 53) in *.
  assert (Hq1 : 2 ^ 52 <= q) by (subst q; apply Z.div_le_lower_bound; lia).
  assert (Hq2 : q < 2 ^ 54) by (subst q; apply Z.div_lt_upper_bound; lia).
  assert (Hq3 : q < 2 ^ (- ee)).
  { subst q. apply Z.div_lt_upper_bound; [lia | ].
    replace (- ee) with (eN - ed + 53) by lia.
    rewrite Z.pow_add_r by lia. nia. }
  assert (Hcase : q < 2 ^ 53 \/ 2 ^ 53 <= q) by lia.
  destruct Hcase as [Hs | Hl].
  - destruct (binary_round_aux_normal false q ee (new_location (Zpos mN) r) 0)
      as (m & e & -> & Hm & He & [_ Hv] & _);
      [lia | change (52 + 0) with 52; change (53 + 0) with 53; lia
      | lia | lia | ].
    rewrite Z.pow_0_r, Z.div_1_r in Hv.
    assert (Hb : Zpos m <= 2 ^ (- e)).
    { assert (Hd : e = ee + 0 \/ e = ee + 0 + 1) by lia.
      destruct Hd as [-> | ->].
      - replace (ee + 0 - ee - 0) with 0 in Hv by lia.
        replace (- (ee + 0)) with (- ee) by lia. lia.
      - replace (ee + 0 + 1 - ee - 0) with 1 in Hv by lia.
        replace (- ee) with (1 + - (ee + 0 + 1)) in Hq3 by lia.
        rewrite Z.pow_add_r in Hq3 by lia. lia. }
    exists m, e. split; [reflexivity | ]. split; [exact Hm | ].
    split; [ | exact Hb].
    assert (52 <= - e) by (apply pow2_le_inv; lia). lia.
  - destruct (binary_round_aux_normal false q ee (new_location (Zpos mN) r) 1)
      as (m & e & -> & Hm & He & [_ Hv] & _);
      [lia | change (52 + 1) with 53; change (53 + 1) with 54; lia
      | lia | lia | ].
    assert (Hq4 : q / 2 ^ 1 < 2 ^ (- ee - 1)).
    { apply Z.div_lt_upper_bound; [lia | ].
      rewrite <- Z.pow_add_r by lia.
      replace (1 + (- ee - 1)) with (- ee) by lia. exact Hq3. }
    assert (Hb : Zpos m <= 2 ^ (- e)).
    { assert (Hd : e = ee + 1 \/ e = ee + 1 + 1) by lia.
      destruct Hd as [-> | ->].
      - replace (ee + 1 - ee - 1) with 0 in Hv by lia.
        replace (- (ee + 1)) with (- ee - 1) by lia. lia.
      - replace (ee + 1 + 1 - ee - 1) with 1 in Hv by lia.
        replace (- ee - 1) with (1 + - (ee + 1 + 1)) in Hq4 by lia.
        rewrite Z.pow_add_r in Hq4 by lia. lia. }
    exists m, e. split; [reflexivity | ]. split; [exact Hm | ].
    split; [ | exact Hb].
    assert (52 <= - e) by (apply pow2_le_inv; lia). lia.
Qed.

(** Subtracting from one a normal number [q <= 1] that is not tiny: the
    result is zero or a normal number below one. *)
Lemma sub_one_normal (mq : positive) (eq : Z) :
  2 ^ 52 <= Zpos mq < 2 ^ 53 -> - 104 <= eq <= - 52 ->
  Zpos mq <= 2 ^ (- eq) ->
  sub one (S754_finite false mq eq) = zero \/
  exists (m : positive) (e : Z),
    sub one (S754_finite false mq eq) = S754_finite false m e /\
    2 ^ 52 <= Zpos m < 2 ^ 53 /\ Zpos m < 2 ^ (- e).
Proof.
  intros Hmq Heq Hle.
  unfold sub, one, SFsub.
  rewrite Z.min_r by lia.
  destruct (shl_align_spec (2 ^ 52) (- 52) eq) as (q1 & -> & Hq1); [lia | ].
  rewrite shl_align_id by lia. cbn [fst cond_Zopp].
  change (Zpos (2 ^ 52)) with (2 ^ 52) in Hq1.
  rewrite <- Z.pow_add_r in Hq1 by lia.
  replace (52 + (- 52 - eq)) with (- eq) in Hq1 by lia.
  destruct (Zpos q1 - Zpos mq) as [ | p | p ] eqn:EM; [left; reflexivity | | lia].
  right. cbn [binary_normalize].
  destruct (digits_spec (Zpos p)) as (k & Hk & Hp); [lia | ].
  assert (Hk2 : k <= - eq).
  { assert (k - 1 < - eq) by (apply pow2_lt_inv; lia). lia. }
  destruct (binary_round_normal false p eq k) as (m & e & -> & Hm & Hs & Hl);
    try lia.
  exists m, e. split; [reflexivity | ]. split; [exact Hm | ].
  destruct (Z_le_gt_dec k 53) as [Hle53 | Hgt53].
  - destruct (Hs Hle53) as [-> ->].
    replace (- (k + eq - 53)) with (- eq + (53 - k)) by lia.
    rewrite Z.pow_add_r by lia.
    assert (0 < 2 ^ (53 - k)) by (apply Z.pow_pos_nonneg; lia). nia.
  - destruct (Hl ltac:(lia)) as [He Hv].
    set (n := k - 53) in *.
    assert (Hn : 2 ^ n < 2 ^ 52) by (apply Z.pow_lt_mono_r; lia).
    assert (Hdiv : Zpos p / 2 ^ n < 2 ^ (- eq - n) - 1).
    { apply Z.div_lt_upper_bound; [apply Z.pow_pos_nonneg; lia | ].
      rewrite Z.mul_sub_distr_l, <- Z.pow_add_r by lia.
      replace (n + (- eq - n)) with (- eq) by lia. lia. }
    assert (Hd : e = k + eq - 53 \/ e = k + eq - 53 + 1) by lia.
    destruct Hd as [-> | ->].
    + replace (k + eq - 53 - (k + eq - 53)) with 0 in Hv by lia.
      replace (- (k + eq - 53)) with (- eq - n) by lia. lia.
    + replace (k + eq - 53 + 1 - (k + eq - 53)) with 1 in Hv by lia.
      replace (- eq - n) with (1 + - (k + eq - 53 + 1)) in Hdiv by lia.
      rewrite Z.pow_add_r in Hdiv by lia. lia.
Qed.

(** The score [1 - float64(d) / float64(N)] for [0 <= d < N <= 2 ^ 51]. *)
Lemma score_zero_dist (N : Z) :
  0 < N <= 2 ^ 51 -> sub (of_int 1) (div (of_int 0) (of_int N)) = one.
Proof.
  intros HN. destruct (digits_spec N) as (k & Hk & Hb); [lia | ].
  assert (k - 1 < 52) by (apply pow2_lt_inv; lia).
  destruct (of_int_exact N k) as (m & -> & _); [lia | exact Hb | ].
  reflexivity.
Qed.

Lemma score_pos_dist (d N : Z) :
  0 < d < N -> N <= 2 ^ 51 ->
  sub (of_int 1) (div (of_int d) (of_int N)) = zero \/
  exists (m : positive) (e : Z),
    sub (of_int 1) (div (of_int d) (of_int N)) = S754_finite false m e /\
    2 ^ 52 <= Zpos m < 2 ^ 53 /\ e < - 52.
Proof.
  intros Hd HN.
  destruct (digits_spec N) as (kN & HkN & HbN); [lia | ].
  destruct (digits_spec d) as (kd & Hkd & Hbd); [lia | ].
  assert (kN - 1 < 52) by (apply pow2_lt_inv; lia).
  assert (kd - 1 < kN) by (apply pow2_lt_inv; lia).
  destruct (of_int_exact N kN) as (mN & -> & HmN & HvN); [lia | exact HbN | ].
  destruct (of_int_exact d kd) as (md & -> & Hmd & Hvd); [lia | exact Hbd | ].
  destruct (div_normal md mN (kd - 53) (kN - 53)) as (mq & eq & -> & Hmq & Heq & Hq);
    try lia.
  { rewrite HvN, Hvd, <- Z.mul_assoc, <- Z.pow_add_r by lia.
    replace (53 - kN + (kN - 53 - (kd - 53))) with (53 - kd) by lia.
    assert (0 < 2 ^ (53 - kd)) by (apply Z.pow_pos_nonneg; lia). nia. }
  rewrite of_int_1.
  destruct (sub_one_normal mq eq) as [-> | (m & e & -> & Hm & Hlt)];
    [lia | lia | exact Hq | left; reflexivity | right].
  exists m, e. split; [reflexivity | ]. split; [exact Hm | ].
  assert (52 < - e) by (apply pow2_lt_inv; lia). lia.
Qed.

End Float64Facts.

(** ** Machine integers and [hamming] *)

Module MachineIntFacts.

Lemma int32_small (x : Z) : int32_ok x -> int32 x = x.
Proof.
  unfold int32_ok, int32, wrap. intros Hx.
  change (2 ^ (32 - 1)) with (2 ^ 31). rewrite Z.mod_small; lia.
Qed.

Lemma int_small (x : Z) : - 2 ^ 63 <= x < 2 ^ 63 -> int x = x.
Proof.
  unfold int, wrap. intros Hx.
  change (2 ^ (64 - 1)) with (2 ^ 63). rewrite Z.mod_small; lia.
Qed.

Lemma int64_small (x : Z) : - 2 ^ 63 <= x < 2 ^ 63 -> int64 x = x.
Proof. exact (int_small x). Qed.

(** A value is an [int32] exactly when everything from bit 31 up is the
    sign. *)
Lemma int32_ok_shiftr (x : Z) :
  int32_ok x <-> Z.shiftr x 31 = 0 \/ Z.shiftr x 31 = - 1.
Proof.
  unfold int32_ok. rewrite Z.shiftr_div_pow2 by lia.
  split; intros H; Z.div_mod_to_equations; lia.
Qed.

Lemma lxor_int32_ok (a b : Z) :
  int32_ok a -> int32_ok b -> int32_ok (Z.lxor a b).
Proof.
  rewrite !int32_ok_shiftr, Z.shiftr_lxor.
  intros [-> | ->] [-> | ->]; cbn; auto.
Qed.

Lemma xor32_lxor (a b : Z) :
  int32_ok a -> int32_ok b -> xor32 a b = Z.lxor a b.
Proof. intros Ha Hb. apply int32_small, lxor_int32_ok; assumption. Qed.

Lemma xor32_comm (a b : Z) : xor32 a b = xor32 b a.
Proof. unfold xor32. rewrite Z.lxor_comm. reflexivity. Qed.

Lemma xor32_diag (a : Z) : xor32 a a = 0.
Proof. unfold xor32. rewrite Z.lxor_nilpotent. reflexivity. Qed.

End MachineIntFacts.

Module HammingFacts.
Import GoStrings MachineIntFacts.

Lemma Count_app (s1 s2 : string) (c : ascii) :
  Count (s1 ++ s2) c = Count s1 c + Count s2 c.
Proof.
  induction s1 as [ | x s1 IH]; cbn [Count String.append]; [lia | ].
  rewrite IH. lia.
Qed.

(** The text of a positive magnitude holds at least one ['1'] and at most
    as many as it has digits. *)
Lemma Count_formatBits2 (u : positive) :
  1 <= Count (formatBits2 u) "1" <= Zpos (digits2_pos u).
Proof.
  induction u as [q IH | q IH | ]; cbn [formatBits2 digits2_pos].
  - rewrite Count_app, Pos2Z.inj_succ. cbn. lia.
  - rewrite Count_app, Pos2Z.inj_succ. cbn. lia.
  - cbn. lia.
Qed.

Lemma Count_formatBits2_lt (u : positive) (k : Z) :
  0 <= k -> Zpos u < 2 ^ k -> Count (formatBits2 u) "1" <= k.
Proof.
  intros Hk Hu. pose proof (Count_formatBits2 u) as Hc.
  rewrite Float64Facts.digits2_pos_log2 in Hc.
  assert (Z.log2 (Zpos u) < k) by (apply Z.log2_lt_pow2; lia). lia.
Qed.

Lemma Count_FormatInt2_zero (i : Z) :
  Count (FormatInt2 i) "1" = 0 <-> i = 0.
Proof.
  destruct i as [ | u | u ]; cbn [FormatInt2].
  - cbn. tauto.
  - pose proof (Count_formatBits2 u). split; [lia | discriminate].
  - pose proof (Count_formatBits2 u). cbn [Count]. cbn [Ascii.eqb Bool.eqb].
    split; [lia | discriminate].
Qed.

Lemma Count_FormatInt2_int32 (i : Z) :
  int32_ok i -> 0 <= Count (FormatInt2 i) "1" <= 31.
Proof.
  unfold int32_ok. intros Hi.
  destruct i as [ | u | u ]; cbn [FormatInt2].
  - cbn. lia.
  - pose proof (Count_formatBits2 u).
    pose proof (Count_formatBits2_lt u 31). lia.
  - cbn [Count]. cbn [Ascii.eqb Bool.eqb].
    pose proof (Count_formatBits2 u).
    destruct (Z.eq_dec (Zpos u) (2 ^ 31)) as [E | E].
    + replace u with (2 ^ 31)%positive by lia. vm_compute. split; discriminate.
    + pose proof (Count_formatBits2_lt u 31). lia.
Qed.

Lemma hamming_comm (a b : Z) : hamming a b = hamming b a.
Proof. unfold hamming. rewrite xor32_comm. reflexivity. Qed.

Lemma hamming_diag (a : Z) : hamming a a = 0.
Proof. unfold hamming. rewrite xor32_diag. reflexivity. Qed.

Lemma hamming_lxor (a b : Z) :
  int32_ok a -> int32_ok b ->
  hamming a b = Count (FormatInt2 (Z.lxor a b)) "1".
Proof.
  intros Ha Hb. unfold hamming. rewrite xor32_lxor by assumption.
  pose proof (lxor_int32_ok a b Ha Hb) as Hx. unfold int32_ok in Hx.
  rewrite int64_small by lia. reflexivity.
Qed.

Lemma hamming_bounds (a b : Z) :
  int32_ok a -> int32_ok b -> 0 <= hamming a b <= 31.
Proof.
  intros Ha Hb. rewrite hamming_lxor by assumption.
  apply Count_FormatInt2_int32, lxor_int32_ok; assumption.
Qed.

Lemma hamming_zero_iff (a b : Z) :
  int32_ok a -> int32_ok b -> hamming a b = 0 <-> a = b.
Proof.
  intros Ha Hb. rewrite hamming_lxor, Count_FormatInt2_zero by assumption.
  split; [apply Z.lxor_eq | intros ->; apply Z.lxor_nilpotent].
Qed.

(** *** Where [hamming] is the Hamming distance: a non-negative [a ^ b] *)

Lemma Zsum_fmap_zero {A : Type} (f : A -> Z) (l : list A) :
  (forall x, f x = 0) -> Zsum (f <$> l) = 0.
Proof.
  intros Hf. induction l as [ | x l IH]; [reflexivity | ].
  cbn [fmap list_fmap Zsum foldr]. rewrite Hf. exact IH.
Qed.

Lemma bits_sum_succ (x n : Z) :
  0 <= n ->
  Zsum ((fun j => Z.b2z (Z.testbit x j)) <$> seqZ 0 (Z.succ n))
  = Z.b2z (Z.testbit x 0)
    + Zsum ((fun j => Z.b2z (Z.testbit (Z.div2 x) j)) <$> seqZ 0 n).
Proof.
  intros Hn. rewrite seqZ_cons by lia. rewrite Z.pred_succ.
  cbn [fmap list_fmap Zsum foldr]. f_equal.
  change (Z.succ 0) with (1 + 0). rewrite <- fmap_add_seqZ.
  change (foldr Z.add 0) with Zsum. f_equal.
  rewrite <- list_fmap_compose. apply Forall_fmap_ext, Forall_seqZ.
  intros j Hj. cbn [compose]. rewrite Z.div2_spec, Z.shiftr_spec by lia.
  do 2 f_equal. lia.
Qed.

Lemma Count_formatBits2_bits (n : nat) :
  forall u : positive,
    Zpos u < 2 ^ Z.of_nat n ->
    Count (formatBits2 u) "1"
    = Zsum ((fun j => Z.b2z (Z.testbit (Zpos u) j)) <$> seqZ 0 (Z.of_nat n)).
Proof.
  induction n as [ | n IH]; intros u Hu; [cbn in Hu; lia | ].
  rewrite Nat2Z.inj_succ in *. rewrite Z.pow_succ_r in Hu by lia.
  rewrite bits_sum_succ by lia.
  destruct u as [q | q | ]; cbn [formatBits2].
  - rewrite Count_app, (IH q) by lia. cbn. lia.
  - rewrite Count_app, (IH q) by lia. cbn. lia.
  - change (Z.div2 1) with 0.
    rewrite Zsum_fmap_zero by (intros j; rewrite Z.testbit_0_l; reflexivity).
    reflexivity.
Qed.

Lemma hamming_nonneg_xor (a b : Z) :
  int32_ok a -> int32_ok b -> 0 <= Z.lxor a b ->
  hamming a b = hamming_spec a b.
Proof.
  intros Ha Hb Hx. rewrite hamming_lxor by assumption. unfold hamming_spec.
  pose proof (lxor_int32_ok a b Ha Hb) as Hr. unfold int32_ok in Hr.
  destruct (Z.lxor a b) as [ | u | u ]; [reflexivity | | lia].
  cbn [FormatInt2]. apply (Count_formatBits2_bits 32). cbn. lia.
Qed.

End HammingFacts.

(** ** The loops of [Compare] and [Distance] *)

Module LoopFacts.
Import MachineIntFacts HammingFacts.

Lemma len_nonneg {A : Type} (s : list A) : 0 <= len s.
Proof. unfold len. lia. Qed.

Lemma len_cons {A : Type} (x : A) (s : list A) : len (x :: s) = len s + 1.
Proof. unfold len. cbn [length]. lia. Qed.

Lemma len_eqb {A B : Type} (s : list A) (t : list B) :
  (len s =? len t) = bool_decide (length s = length t).
Proof.
  unfold len. destruct (Z.eqb_spec (Z.of_nat (length s)) (Z.of_nat (length t)));
    [rewrite bool_decide_eq_true_2 | rewrite bool_decide_eq_false_2]; auto; lia.
Qed.

(** The loop of [Compare] never indexes [fprint2] out of range when it is
    as long as [fprint1], and returns the folded accumulator. *)
Lemma Compare_loop_acc (fprint2 : list Z) (rest : list Z) :
  forall (i : nat) (dist : Z),
    (i + length rest <= length fprint2)%nat ->
    Compare_loop fprint2 i rest dist = Ret (acc_hamming dist rest (drop i fprint2)).
Proof.
  induction rest as [ | sub rest IH]; intros i dist Hlen; cbn [Compare_loop].
  - reflexivity.
  - cbn [length] in Hlen.
    destruct (lookup_lt_is_Some_2 fprint2 i) as [y Hy]; [lia | ].
    rewrite Hy, IH by lia. rewrite (drop_S _ _ _ Hy). reflexivity.
Qed.

Lemma acc_hamming_nil_l (dist : Z) (ys : list Z) : acc_hamming dist [] ys = dist.
Proof. reflexivity. Qed.

Lemma acc_hamming_nil_r (dist : Z) (xs : list Z) : acc_hamming dist xs [] = dist.
Proof. destruct xs; reflexivity. Qed.

Lemma acc_hamming_cons (dist x y : Z) (xs ys : list Z) :
  acc_hamming dist (x :: xs) (y :: ys)
  = acc_hamming (int (dist + hamming x y)) xs ys.
Proof. reflexivity. Qed.

Lemma total_hamming_nil_l (ys : list Z) : total_hamming [] ys = 0.
Proof. reflexivity. Qed.

Lemma total_hamming_nil_r (xs : list Z) : total_hamming xs [] = 0.
Proof. destruct xs; reflexivity. Qed.

Lemma total_hamming_cons (x y : Z) (xs ys : list Z) :
  total_hamming (x :: xs) (y :: ys) = hamming x y + total_hamming xs ys.
Proof. reflexivity. Qed.

Lemma acc_hamming_comm (xs : list Z) :
  forall (ys : list Z) (dist : Z), acc_hamming dist xs ys = acc_hamming dist ys xs.
Proof.
  induction xs as [ | x xs IH]; intros ys dist.
  - rewrite acc_hamming_nil_l, acc_hamming_nil_r. reflexivity.
  - destruct ys as [ | y ys]; [reflexivity | ].
    rewrite !acc_hamming_cons, (hamming_comm x y). apply IH.
Qed.

Lemma total_hamming_bounds (xs : list Z) :
  forall ys : list Z,
    Forall int32_ok xs -> Forall int32_ok ys ->
    0 <= total_hamming xs ys <= 31 * len xs.
Proof.
  induction xs as [ | x xs IH]; intros ys Hxs Hys.
  - rewrite total_hamming_nil_l. unfold len. cbn. lia.
  - rewrite len_cons. pose proof (len_nonneg xs).
    destruct ys as [ | y ys]; [rewrite total_hamming_nil_r; lia | ].
    apply Forall_cons in Hxs as [Hx Hxs]. apply Forall_cons in Hys as [Hy Hys].
    pose proof (hamming_bounds x y Hx Hy). specialize (IH ys Hxs Hys).
    rewrite total_hamming_cons. lia.
Qed.

(** Within the range of [int] the accumulator is the plain sum. *)
Lemma acc_hamming_sum (xs : list Z) :
  forall (ys : list Z) (dist : Z),
    Forall int32_ok xs -> Forall int32_ok ys ->
    0 <= dist -> dist + 31 * len xs < 2 ^ 63 ->
    acc_hamming dist xs ys = dist + total_hamming xs ys.
Proof.
  induction xs as [ | x xs IH]; intros ys dist Hxs Hys H0 Hb.
  - rewrite acc_hamming_nil_l, total_hamming_nil_l. lia.
  - destruct ys as [ | y ys];
      [rewrite acc_hamming_nil_r, total_hamming_nil_r; lia | ].
    apply Forall_cons in Hxs as [Hx Hxs]. apply Forall_cons in Hys as [Hy Hys].
    pose proof (hamming_bounds x y Hx Hy). rewrite len_cons in Hb.
    pose proof (len_nonneg xs).
    rewrite acc_hamming_cons, total_hamming_cons.
    rewrite (int_small (dist + hamming x y)) by lia.
    rewrite IH by (auto; lia). lia.
Qed.

Lemma total_hamming_zero_iff (xs : list Z) :
  forall ys : list Z,
    Forall int32_ok xs -> Forall int32_ok ys -> length xs = length ys ->
    total_hamming xs ys = 0 <-> xs = ys.
Proof.
  induction xs as [ | x xs IH]; intros [ | y ys] Hxs Hys Hlen;
    try discriminate; [split; reflexivity | ].
  apply Forall_cons in Hxs as [Hx Hxs]. apply Forall_cons in Hys as [Hy Hys].
  pose proof (hamming_bounds x y Hx Hy).
  pose proof (total_hamming_bounds xs ys Hxs Hys).
  pose proof (hamming_zero_iff x y Hx Hy).
  assert (Hl : length xs = length ys) by (cbn [length] in Hlen; lia).
  specialize (IH ys Hxs Hys Hl).
  rewrite total_hamming_cons.
  split.
  - intros Hs. assert (Hh : hamming x y = 0) by lia.
    f_equal; [tauto | ]. apply IH. lia.
  - intros E. inversion E; subst.
    assert (total_hamming ys ys = 0) by (apply IH; reflexivity).
    rewrite hamming_diag. lia.
Qed.

(** The loop of [Distance] overwrites the cells [i ..] of [dist] with the
    pairwise XOR and never indexes out of range. *)
Lemma Distance_loop_spec (fprint2 : list Z) (rest : list Z) :
  forall (i : nat) (dist : list Z),
    (i + length rest <= length fprint2)%nat ->
    (i + length rest <= length dist)%nat ->
    Distance_loop fprint2 i rest dist
    = Ret (take i dist ++ zip_with xor32 rest (drop i fprint2)
           ++ drop (i + length rest) dist).
Proof.
  induction rest as [ | sub rest IH]; intros i dist H2 Hd; cbn [Distance_loop].
  - cbn [length zip_with]. rewrite Nat.add_0_r, app_nil_l, take_drop.
    reflexivity.
  - cbn [length] in H2, Hd.
    destruct (lookup_lt_is_Some_2 fprint2 i) as [y Hy]; [lia | ].
    rewrite Hy. destruct (decide (i < length dist)%nat) as [Hi | Hi]; [ | lia].
    rewrite IH by (rewrite ?length_insert; lia).
    rewrite (take_S_r _ _ (xor32 sub y))
      by (apply list_lookup_insert_eq; exact Hi).
    rewrite take_insert_ge, drop_insert_lt by lia.
    rewrite (drop_S _ _ _ Hy). cbn [zip_with length].
    rewrite <- app_assoc. cbn [app].
    replace (S i + length rest)%nat with (i + S (length rest))%nat by lia.
    reflexivity.
Qed.

Lemma Compare_eq_len (a b : list Z) :
  length a = length b ->
  Compare a b = Ret (score_of (acc_hamming 0 a b) (Compare_divisor a), None).
Proof.
  intros Hlen. unfold Compare.
  rewrite len_eqb, bool_decide_eq_true_2 by exact Hlen. cbn [negb].
  rewrite Compare_loop_acc by (cbn; lia). reflexivity.
Qed.

Lemma Compare_neq_len (a b : list Z) :
  length a <> length b -> Compare a b = Ret (Float64.zero, Some ErrLength).
Proof.
  intros Hlen. unfold Compare.
  rewrite len_eqb, bool_decide_eq_false_2 by exact Hlen. reflexivity.
Qed.

Lemma Distance_eq_len (a b : list Z) :
  length a = length b -> Distance a b = Ret (zip_with xor32 a b, None).
Proof.
  intros Hlen. unfold Distance.
  rewrite len_eqb, bool_decide_eq_true_2 by exact Hlen. cbn [negb].
  rewrite Distance_loop_spec by (rewrite ?length_replicate; cbn; lia).
  cbn [obind]. change (0 + length a)%nat with (length a).
  rewrite (drop_ge (replicate _ _)) by (rewrite length_replicate; lia).
  rewrite take_0, drop_0, app_nil_l, app_nil_r. reflexivity.
Qed.

Lemma Distance_neq_len (a b : list Z) :
  length a <> length b -> Distance a b = Ret ([], Some ErrLength).
Proof.
  intros Hlen. unfold Distance.
  rewrite len_eqb, bool_decide_eq_false_2 by exact Hlen. reflexivity.
Qed.

Lemma zip_with_xor32_lxor (a : list Z) :
  forall b : list Z,
    Forall int32_ok a -> Forall int32_ok b ->
    zip_with xor32 a b = zip_with Z.lxor a b /\
    Forall int32_ok (zip_with Z.lxor a b).
Proof.
  induction a as [ | x a IH]; intros [ | y b] Ha Hb; cbn [zip_with]; auto.
  apply Forall_cons in Ha as [Hx Ha]. apply Forall_cons in Hb as [Hy Hb].
  destruct (IH b Ha Hb) as [-> HF]. rewrite xor32_lxor by assumption.
  split; [reflexivity | ]. constructor; [apply lxor_int32_ok | ]; assumption.
Qed.

Lemma zip_with_xor32_comm (a : list Z) :
  forall b : list Z, zip_with xor32 a b = zip_with xor32 b a.
Proof.
  induction a as [ | x a IH]; intros [ | y b]; cbn [zip_with]; auto.
  rewrite (xor32_comm x y), IH. reflexivity.
Qed.

Lemma zip_with_xor32_diag (a : list Z) :
  zip_with xor32 a a = replicate (length a) 0.
Proof.
  induction a as [ | x a IH]; cbn [zip_with length replicate]; auto.
  rewrite xor32_diag, IH. reflexivity.
Qed.

Lemma lxor_triangle (x y z : Z) : Z.lxor (Z.lxor x y) (Z.lxor y z) = Z.lxor x z.
Proof.
  rewrite Z.lxor_assoc, <- (Z.lxor_assoc y y z), Z.lxor_nilpotent, Z.lxor_0_l.
  reflexivity.
Qed.

Lemma zip_with_lxor_triangle (a : list Z) :
  forall b c : list Z,
    length a = length b -> length b = length c ->
    zip_with Z.lxor (zip_with Z.lxor a b) (zip_with Z.lxor b c)
    = zip_with Z.lxor a c.
Proof.
  induction a as [ | x a IH]; intros [ | y b] [ | z c] Hab Hbc;
    try discriminate; cbn [zip_with]; auto.
  rewrite lxor_triangle, IH by (cbn [length] in *; lia). reflexivity.
Qed.

Lemma acc_hamming_diag (a : list Z) : acc_hamming 0 a a = 0.
Proof.
  induction a as [ | x a IH]; [reflexivity | ].
  rewrite acc_hamming_cons, hamming_diag. exact IH.
Qed.

End LoopFacts.

(** ** The pixel buffer written by [int32ToImage] *)

Module ImageFacts.
Import GoImage MachineIntFacts LoopFacts.

Lemma offset_inj (N i j i' j' : Z) :
  0 <= i < N -> 0 <= i' < N -> 0 <= j -> 0 <= j' ->
  offset N i j = offset N i' j' -> i = i' /\ j = j'.
Proof.
  unfold offset. intros Hi Hi' Hj Hj' E.
  apply Z2Nat.inj in E; [ | nia | nia].
  assert (j = j') by nia. subst j'. lia.
Qed.

Lemma Rect_frame (N : Z) : 0 <= N -> Rect 0 0 N bitsperint = frame N.
Proof.
  intros HN. unfold Rect, frame, bitsperint.
  destruct (Z.ltb_spec N 0); [lia | reflexivity].
Qed.

Lemma NewGray_wf (N : Z) :
  0 <= N -> 32 * N < 2 ^ 63 ->
  exists im, NewGray (frame N) = Ret im /\ wf_image N im.
Proof.
  intros HN Hb. unfold NewGray, Dx, Dy, frame. cbn [MaxX MinX MaxY MinY].
  rewrite Z.sub_0_r, (int_small N) by lia.
  rewrite Z.mul_1_l, (int_small N) by lia.
  change (int (32 - 0)) with 32.
  rewrite (int_small (N * 32)) by lia.
  destruct (Z.ltb_spec (N * 32) 0) as [Hneg | _]; [lia | ].
  eexists. split; [reflexivity | ].
  unfold wf_image, len. cbn [Pix Stride Bounds].
  rewrite length_replicate. split; [reflexivity | ]. split; [reflexivity | lia].
Qed.

Lemma In_frame (N x y : Z) :
  0 <= x < N -> 0 <= y < 32 -> In x y (frame N) = true.
Proof.
  intros Hx Hy. unfold In, frame. cbn [MinX MinY MaxX MaxY].
  rewrite !andb_true_iff, !Z.leb_le, !Z.ltb_lt. lia.
Qed.

Lemma PixOffset_wf (N : Z) (im : Gray) (x y : Z) :
  wf_image N im -> 0 <= x < N -> 0 <= y < 32 -> 32 * N < 2 ^ 63 ->
  PixOffset im x y = y * N + x.
Proof.
  intros (HS & HB & _) Hx Hy Hb. unfold PixOffset. rewrite HS, HB.
  cbn [MinX MinY frame]. rewrite !Z.sub_0_r, Z.mul_1_r.
  rewrite (int_small y), (int_small x) by lia.
  rewrite (int_small (y * N)), (int_small x) by nia.
  apply int_small. nia.
Qed.

Lemma Set_wf (N : Z) (im : Gray) (x y v : Z) :
  wf_image N im -> 0 <= x < N -> 0 <= y < 32 -> 32 * N < 2 ^ 63 ->
  exists im',
    Set_ im x y v = Ret im' /\ wf_image N im' /\
    Pix im' = <[offset N x y := v]> (Pix im).
Proof.
  intros Hwf Hx Hy Hb. unfold Set_.
  destruct Hwf as (HS & HB & HL).
  rewrite (PixOffset_wf N) by (unfold wf_image; auto).
  rewrite HB, In_frame by lia. cbn [negb].
  replace ((0 <=? y * N + x) && (y * N + x <? len (Pix im))) with true
    by (symmetry; rewrite andb_true_iff, Z.leb_le, Z.ltb_lt; nia).
  eexists. split; [reflexivity | ]. cbn [Pix Stride Bounds].
  split; [ | reflexivity].
  unfold wf_image, len. cbn [Pix Stride Bounds]. rewrite length_insert.
  auto.
Qed.

Lemma At_wf (N : Z) (im : Gray) (x y v : Z) :
  wf_image N im -> 0 <= x < N -> 0 <= y < 32 -> 32 * N < 2 ^ 63 ->
  Pix im !! offset N x y = Some v -> At im x y = Ret v.
Proof.
  intros Hwf Hx Hy Hb Hv. unfold At.
  rewrite (PixOffset_wf N) by auto.
  destruct Hwf as (HS & HB & HL).
  rewrite HB, In_frame by lia. cbn [negb].
  replace ((0 <=? y * N + x) && (y * N + x <? len (Pix im))) with true
    by (symmetry; rewrite andb_true_iff, Z.leb_le, Z.ltb_lt; nia).
  unfold offset in Hv. rewrite Hv. reflexivity.
Qed.

(** [uint8(sub&1) * 0xFF] is white for an odd [sub] and black for an even
    one. *)
Lemma gray_of_low_bit (sub : Z) :
  uint8 (uint8 (and32 sub 1) * 255) = gray_of_bit (Z.testbit sub 0).
Proof.
  unfold and32. change 1 with (Z.ones 1) at 1.
  rewrite Z.land_ones by lia. change (2 ^ 1) with 2.
  rewrite <- Z.bit0_mod.
  destruct (Z.testbit sub 0); reflexivity.
Qed.

Lemma shr32_1 (sub : Z) :
  int32_ok sub ->
  int32_ok (shr32 sub 1) /\
  forall k, 0 <= k -> Z.testbit (shr32 sub 1) k = Z.testbit sub (k + 1).
Proof.
  intros Hs. unfold shr32.
  assert (Hok : int32_ok (Z.shiftr sub 1)).
  { unfold int32_ok in *. rewrite Z.shiftr_div_pow2 by lia.
    change (2 ^ 1) with 2. Z.div_mod_to_equations. lia. }
  rewrite int32_small by exact Hok. split; [exact Hok | ].
  intros k Hk. apply Z.shiftr_spec. exact Hk.
Qed.

(** The inner loop, entered at row [j] with [sub] already shifted: it
    writes the rows [j .. 31] of column [i] and nothing else. *)
Lemma column_loop_spec (N i : Z) :
  0 <= i < N -> 32 * N < 2 ^ 63 ->
  forall (n : nat) (j sub : Z) (im : Gray),
    wf_image N im -> int32_ok sub -> 0 <= j -> j + Z.of_nat n = 32 ->
    exists im',
      column_loop n i j sub im = Ret im' /\ wf_image N im' /\
      (forall k : nat,
          (forall j', j <= j' < 32 -> k <> offset N i j') ->
          Pix im' !! k = Pix im !! k) /\
      (forall j', j <= j' < 32 ->
          Pix im' !! offset N i j' = Some (gray_of_bit (Z.testbit sub (j' - j)))).
Proof.
  intros Hi Hb. induction n as [ | n IH]; intros j sub im Hwf Hsub Hj Hn;
    cbn [column_loop].
  - exists im. split; [reflexivity | ]. split; [exact Hwf | ].
    split; [reflexivity | ]. intros j' Hj'. lia.
  - destruct (Set_wf N im i j (uint8 (uint8 (and32 sub 1) * 255)) Hwf)
      as (im1 & -> & Hwf1 & HP1); [lia | lia | exact Hb | ].
    cbn [obind]. rewrite gray_of_low_bit in HP1.
    destruct (shr32_1 sub Hsub) as [Hsub1 Hbits].
    rewrite (int_small (j + 1)) by lia.
    destruct (IH (j + 1) (shr32 sub 1) im1 Hwf1 Hsub1) as (im' & -> & Hwf' & Hfr & Hval);
      [lia | lia | ].
    exists im'. split; [reflexivity | ]. split; [exact Hwf' | ].
    assert (Hlt : (offset N i j < length (Pix im))%nat).
    { destruct Hwf as (_ & _ & HL). unfold len in HL. unfold offset. nia. }
    split.
    + intros k Hk. rewrite Hfr by (intros j' Hj'; apply Hk; lia).
      rewrite HP1. apply list_lookup_insert_ne.
      intros E. apply (Hk j); [lia | congruence].
    + intros j' Hj'. destruct (Z.eq_dec j' j) as [-> | Hne].
      * rewrite Hfr.
        -- rewrite HP1, list_lookup_insert_eq by exact Hlt.
           rewrite Z.sub_diag. reflexivity.
        -- intros j2 Hj2 E.
           apply offset_inj in E; lia.
      * rewrite Hval by lia. rewrite Hbits by lia.
        do 3 f_equal. lia.
Qed.

(** The outer loop, entered at column [i]: it writes the columns
    [i .. N - 1] and nothing else. *)
Lemma image_loop_spec (N : Z) :
  32 * N < 2 ^ 63 ->
  forall (rest : list Z) (i : Z) (im : Gray),
    wf_image N im -> Forall int32_ok rest -> 0 <= i -> i + len rest = N ->
    exists im',
      image_loop i rest im = Ret im' /\ wf_image N im' /\
      (forall k : nat,
          (forall i' j', i <= i' < N -> 0 <= j' < 32 -> k <> offset N i' j') ->
          Pix im' !! k = Pix im !! k) /\
      (forall (c : nat) (x j' : Z),
          rest !! c = Some x -> 0 <= j' < 32 ->
          Pix im' !! offset N (i + Z.of_nat c) j'
          = Some (gray_of_bit (Z.testbit x j'))).
Proof.
  intros Hb. induction rest as [ | sub rest IH]; intros i im Hwf Hok Hi HN;
    cbn [image_loop].
  - exists im. split; [reflexivity | ]. split; [exact Hwf | ].
    split; [reflexivity | ]. intros c x j' Hc. discriminate.
  - rewrite len_cons in HN. pose proof (len_nonneg rest) as Hr.
    apply Forall_cons in Hok as [Hsub Hok].
    destruct (column_loop_spec N i ltac:(lia) Hb (Z.to_nat bitsperint) 0 sub im Hwf Hsub)
      as (im1 & -> & Hwf1 & Hfr1 & Hval1); [lia | reflexivity | ].
    cbn [obind].
    destruct (IH (i + 1) im1 Hwf1 Hok) as (im' & -> & Hwf' & Hfr & Hval);
      [lia | lia | ].
    exists im'. split; [reflexivity | ]. split; [exact Hwf' | ].
    split.
    + intros k Hk. rewrite Hfr by (intros i' j' Hi' Hj'; apply Hk; lia).
      apply Hfr1. intros j' Hj'. apply Hk; lia.
    + intros c x j' Hc Hj'. destruct c as [ | c]; cbn in Hc.
      * injection Hc as ->. rewrite Z.add_0_r.
        rewrite Hfr.
        -- rewrite Hval1 by lia. rewrite Z.sub_0_r. reflexivity.
        -- intros i' j2 Hi' Hj2 E. apply offset_inj in E; lia.
      * replace (i + Z.of_nat (S c)) with (i + 1 + Z.of_nat c) by lia.
        apply Hval; assumption.
Qed.

Lemma int32ToImage_spec (s : list Z) :
  fingerprint_ok s ->
  exists im,
    int32ToImage s = Ret im /\ wf_image (len s) im /\
    forall (i : nat) (x j : Z),
      s !! i = Some x -> 0 <= j < 32 ->
      Pix im !! offset (len s) (Z.of_nat i) j = Some (gray_of_bit (Z.testbit x j)).
Proof.
  intros [Hok Hlen]. unfold max_len in Hlen. pose proof (len_nonneg s) as H0.
  unfold int32ToImage. rewrite Rect_frame by exact H0.
  destruct (NewGray_wf (len s)) as (im0 & -> & Hwf0); [lia | lia | ].
  cbn [obind].
  destruct (image_loop_spec (len s) ltac:(lia) s 0 im0)
    as (im & -> & Hwf & _ & Hval);
    [exact Hwf0 | exact Hok | lia | lia | ].
  exists im. split; [reflexivity | ]. split; [exact Hwf | ].
  intros i x j Hi Hj. apply (Hval i x j Hi Hj).
Qed.

End ImageFacts.

(** ** The score and its comparison with zero and one *)

Module ScoreFacts.
Import Float64 Float64Facts MachineIntFacts HammingFacts LoopFacts.

Lemma Compare_divisor_small (a : list Z) :
  len a <= max_len -> Compare_divisor a = 32 * len a.
Proof.
  unfold max_len, Compare_divisor, bitsperint. intros Hlen.
  pose proof (len_nonneg a). rewrite int_small by lia. lia.
Qed.

(** For well-formed fingerprints of equal length [Compare] returns the
    score of the plain sum of the [hamming] values over [32 * len]. *)
Lemma Compare_total (a b : list Z) :
  fingerprint_ok a -> fingerprint_ok b -> length a = length b ->
  Compare a b = Ret (score_of (total_hamming a b) (32 * len a), None) /\
  0 <= total_hamming a b <= 31 * len a.
Proof.
  intros [Ha Hla] [Hb Hlb] Hlen.
  pose proof (total_hamming_bounds a b Ha Hb) as Ht.
  split; [ | exact Ht].
  rewrite Compare_eq_len by exact Hlen.
  rewrite Compare_divisor_small by exact Hla.
  unfold max_len in Hla. pose proof (len_nonneg a).
  rewrite acc_hamming_sum by (auto; lia). reflexivity.
Qed.

Lemma score_of_zero_dist (N : Z) : 0 < N <= 2 ^ 51 -> score_of 0 N = one.
Proof. apply score_zero_dist. Qed.

Lemma score_of_pos_dist (d N : Z) :
  0 < d < N -> N <= 2 ^ 51 ->
  leb zero (score_of d N) = true /\ leb (score_of d N) one = true /\
  score_of d N <> one.
Proof.
  intros Hd HN. unfold score_of.
  destruct (score_pos_dist d N Hd HN) as [-> | (m & e & -> & Hm & He)].
  - repeat split; try reflexivity. discriminate.
  - unfold leb, SFleb, SFcompare, zero, one.
    destruct (Z.compare_spec e (- 52)) as [E | E | E]; try lia.
    repeat split; try reflexivity. intros E'. injection E' as _ E'. lia.
Qed.

(** Why the length of a fingerprint is bounded in the statements below.
    Lists are unbounded, slices are not. For a list of [2 ^ 49] elements a
    single differing bit would give the quotient [2 ^ -54], and
    [1 - 2 ^ -54] rounds to [1.0]; for one of [2 ^ 58] elements [len * 32]
    wraps to a negative [int] and the score exceeds one. *)
Remark score_rounds_to_one_beyond_max_len :
  score_of 1 (int (2 ^ 49 * bitsperint)) = one.
Proof. reflexivity. Qed.

Remark score_above_one_when_divisor_wraps :
  int (2 ^ 58 * bitsperint) = - 2 ^ 63 /\
  leb (score_of (31 * 2 ^ 58) (int (2 ^ 58 * bitsperint))) one = false.
Proof. split; reflexivity. Qed.

End ScoreFacts.

(** * The properties of the specification *)

Section Claims.
Import Float64 MachineIntFacts HammingFacts LoopFacts ImageFacts ScoreFacts.

(** C1 (the code departs from it): the specification takes the Hamming
    distance of [a[i]] and [b[i]] over their 32-bit representations, so the
    fingerprints [[0]] and [[-1]], which differ in all 32 bits, should score
    [1 - 32/32 = 0]. [hamming] counts the ['1'] digits of the signed text of
    [a ^ b], which for [0 ^ -1 = -1] is ["-1"]: one digit, and [Compare]
    returns [1 - 1/32 = 0.96875]. *)
Lemma Compare_sign_bit_miscounted :
  hamming 0 (- 1) = 1 /\ hamming_spec 0 (- 1) = 32 /\
  Compare [0] [- 1] = Ret (S754_finite false 8725724278030336 (- 53), None) /\
  Compare_spec [0] [- 1] = Ret (zero, None).
Proof. repeat split; vm_compute; reflexivity. Qed.

(** C2: on fingerprints of unequal length [Compare] returns a zero score with
    [ErrLength] and [Distance] returns [ErrLength] with no vector; on
    fingerprints of equal length neither panics, neither returns an error,
    and the vector of [Distance] has the full length. *)
Theorem Compare_Distance_length_mismatch (a b : list Z) :
  (length a <> length b ->
   Compare a b = Ret (zero, Some ErrLength) /\
   Distance a b = Ret ([], Some ErrLength)) /\
  (length a = length b ->
   exists (s : float64) (d : list Z),
     Compare a b = Ret (s, None) /\ Distance a b = Ret (d, None) /\
     length d = length a).
Proof.
  split; intros Hlen.
  - split; [apply Compare_neq_len | apply Distance_neq_len]; exact Hlen.
  - exists (score_of (acc_hamming 0 a b) (Compare_divisor a)), (zip_with xor32 a b).
    split; [apply Compare_eq_len; exact Hlen | ].
    split; [apply Distance_eq_len; exact Hlen | ].
    rewrite length_zip_with. lia.
Qed.

Lemma Compare_Distance_length_mismatch_witness :
  (Compare [1; 2] [1; 2; 3] = Ret (zero, Some ErrLength) /\
   Distance [1; 2] [1; 2; 3] = Ret ([], Some ErrLength)) /\
  (exists (s : float64) (d : list Z),
     Compare [5; 9] [5; 8] = Ret (s, None) /\
     Distance [5; 9] [5; 8] = Ret (d, None) /\
     length d = length [5; 9]).
Proof.
  split.
  - apply (proj1 (Compare_Distance_length_mismatch [1; 2] [1; 2; 3])).
    simpl. lia.
  - apply (proj2 (Compare_Distance_length_mismatch [5; 9] [5; 8])).
    reflexivity.
Defined.

(** C3 (the code departs from it): for the empty fingerprint the length test
    passes, the accumulated distance and the divisor [len * 32] are both
    zero, and the score is [1 - 0/0], a NaN, which is not [1.0]. The part
    about [Distance] holds there: it returns the empty vector and no
    error. *)
Lemma Compare_self_empty_not_one :
  Compare [] [] = Ret (S754_nan, None) /\
  SFeqb S754_nan one = false /\
  Distance [] [] = Ret ([], None).
Proof. repeat split. Qed.

(** C4: for fingerprints of equal length, [Compare] and [Distance] return the
    same result (value and error) whichever argument comes first. *)
Theorem Compare_Distance_symmetric (a b : list Z) :
  length a = length b ->
  Compare a b = Compare b a /\ Distance a b = Distance b a.
Proof.
  intros Hlen. split.
  - rewrite (Compare_eq_len a b), (Compare_eq_len b a) by congruence.
    rewrite (acc_hamming_comm a b). unfold Compare_divisor, len.
    rewrite Hlen. reflexivity.
  - rewrite (Distance_eq_len a b), (Distance_eq_len b a) by congruence.
    rewrite (zip_with_xor32_comm a b). reflexivity.
Qed.

Lemma Compare_Distance_symmetric_witness :
  Compare [1; - 2] [3; 4] = Compare [3; 4] [1; - 2] /\
  Distance [1; - 2] [3; 4] = Distance [3; 4] [1; - 2].
Proof. apply (Compare_Distance_symmetric [1; - 2] [3; 4]). reflexivity. Defined.

(** C5: for [int32] fingerprints of equal length, [Distance(a, b)] has the
    length of its inputs, its [i]-th element is the bitwise XOR of [a[i]] and
    [b[i]], and the element-wise XOR of [Distance(a, b)] and [Distance(b, c)]
    is [Distance(a, c)]. *)
Theorem Distance_xor_triangle (a b c : list Z) :
  Forall int32_ok a -> Forall int32_ok b -> Forall int32_ok c ->
  length a = length b -> length b = length c ->
  exists dab dbc dac : list Z,
    Distance a b = Ret (dab, None) /\
    Distance b c = Ret (dbc, None) /\
    Distance a c = Ret (dac, None) /\
    zip_with Z.lxor dab dbc = dac /\
    length dab = length a /\
    forall (i : nat) (x y : Z),
      a !! i = Some x -> b !! i = Some y -> dab !! i = Some (Z.lxor x y).
Proof.
  intros Ha Hb Hc Hab Hbc.
  exists (zip_with Z.lxor a b), (zip_with Z.lxor b c), (zip_with Z.lxor a c).
  destruct (zip_with_xor32_lxor a b Ha Hb) as [Eab _].
  destruct (zip_with_xor32_lxor b c Hb Hc) as [Ebc _].
  destruct (zip_with_xor32_lxor a c Ha Hc) as [Eac _].
  rewrite <- Eab at 1. rewrite <- Ebc at 1. rewrite <- Eac at 1.
  split; [apply Distance_eq_len; exact Hab | ].
  split; [apply Distance_eq_len; exact Hbc | ].
  split; [apply Distance_eq_len; congruence | ].
  split; [apply zip_with_lxor_triangle; assumption | ].
  split; [rewrite length_zip_with; lia | ].
  intros i x y Hx Hy. rewrite lookup_zip_with, Hx, Hy. reflexivity.
Qed.

Lemma Distance_xor_triangle_witness :
  exists dab dbc dac : list Z,
    Distance [0; - 7] [15; 9] = Ret (dab, None) /\
    Distance [15; 9] [- 1; 2] = Ret (dbc, None) /\
    Distance [0; - 7] [- 1; 2] = Ret (dac, None) /\
    zip_with Z.lxor dab dbc = dac /\
    length dab = length [0; - 7] /\
    forall (i : nat) (x y : Z),
      [0; - 7] !! i = Some x -> [15; 9] !! i = Some y ->
      dab !! i = Some (Z.lxor x y).
Proof.
  apply (Distance_xor_triangle [0; - 7] [15; 9] [- 1; 2]);
    try reflexivity; repeat constructor; unfold int32_ok; lia.
Defined.

(** C6: for well-formed fingerprints of equal, nonzero length the score of
    [Compare] is a float64 [s] with [0 <= s] and [s <= 1]. *)
Theorem Compare_score_in_unit_interval (a b : list Z) :
  fingerprint_ok a -> fingerprint_ok b -> length a = length b -> 0 < len a ->
  exists s : float64,
    Compare a b = Ret (s, None) /\ leb zero s = true /\ leb s one = true.
Proof.
  intros Ha Hb Hlen Hpos.
  destruct (Compare_total a b Ha Hb Hlen) as [-> Ht].
  destruct Ha as [_ Hla]. unfold max_len in Hla.
  exists (score_of (total_hamming a b) (32 * len a)).
  split; [reflexivity | ].
  destruct (Z.eq_dec (total_hamming a b) 0) as [-> | Hne].
  - rewrite score_of_zero_dist by lia. split; reflexivity.
  - destruct (score_of_pos_dist (total_hamming a b) (32 * len a)) as (H0 & H1 & _);
      [lia | lia | ]. split; assumption.
Qed.

Lemma Compare_score_in_unit_interval_witness :
  exists s : float64,
    Compare [0; 3] [15; - 5] = Ret (s, None) /\
    leb zero s = true /\ leb s one = true.
Proof.
  apply (Compare_score_in_unit_interval [0; 3] [15; - 5]);
    [ split; [repeat constructor; unfold int32_ok; lia | vm_compute; discriminate]
    | split; [repeat constructor; unfold int32_ok; lia | vm_compute; discriminate]
    | reflexivity
    | reflexivity ].
Defined.

(** C7: for a well-formed fingerprint [f] of length [N] (zero included),
    [ToImage] returns an image with bounds [(0,0)-(N,32)], so [N] wide and 32
    high, in which the pixel at column [i], row [j] is white when bit [j] of
    [f[i]] is set and black when it is clear, for every [i < N] and
    [0 <= j <= 31] (bit 0 on row 0, the sign bit on row 31). *)
Theorem ToImage_pixels (f : list Z) :
  fingerprint_ok f ->
  exists im : GoImage.Gray,
    ToImage f = Ret im /\
    GoImage.Bounds im = frame (len f) /\
    GoImage.Dx (GoImage.Bounds im) = len f /\
    GoImage.Dy (GoImage.Bounds im) = 32 /\
    forall (i : nat) (x j : Z),
      f !! i = Some x -> 0 <= j < 32 ->
      GoImage.At im (Z.of_nat i) j = Ret (gray_of_bit (Z.testbit x j)).
Proof.
  intros Hf. destruct (int32ToImage_spec f Hf) as (im & E & Hwf & Hpix).
  destruct Hf as [_ Hlen]. unfold max_len in Hlen.
  pose proof (len_nonneg f) as H0.
  exists im. split; [exact E | ].
  pose proof Hwf as (_ & HB & _). split; [exact HB | ].
  rewrite HB. unfold GoImage.Dx, GoImage.Dy, frame.
  cbn [GoImage.MinX GoImage.MinY GoImage.MaxX GoImage.MaxY].
  split; [rewrite Z.sub_0_r; apply int_small; lia | ].
  split; [reflexivity | ].
  intros i x j Hi Hj. apply (At_wf (len f)); try lia; auto.
  apply lookup_lt_Some in Hi. unfold len. lia.
Qed.

Lemma ToImage_pixels_witness :
  exists im : GoImage.Gray,
    ToImage [5; - 2 ^ 31] = Ret im /\
    GoImage.Bounds im = frame (len [5; - 2 ^ 31]) /\
    GoImage.Dx (GoImage.Bounds im) = len [5; - 2 ^ 31] /\
    GoImage.Dy (GoImage.Bounds im) = 32 /\
    forall (i : nat) (x j : Z),
      [5; - 2 ^ 31] !! i = Some x -> 0 <= j < 32 ->
      GoImage.At im (Z.of_nat i) j = Ret (gray_of_bit (Z.testbit x j)).
Proof.
  apply (ToImage_pixels [5; - 2 ^ 31]).
  split; [repeat constructor; unfold int32_ok; lia | vm_compute; discriminate].
Defined.

(** C8: [ImageDistance] is [Distance] followed by [ToImage]: on fingerprints
    of equal length [Distance] returns a vector and no error and
    [ImageDistance] returns the image of that vector and no error; on
    fingerprints of unequal length both fail with [ErrLength] and
    [ImageDistance] returns no image. *)
Theorem ImageDistance_is_ToImage_of_Distance (a b : list Z) :
  (length a = length b ->
   exists d : list Z,
     Distance a b = Ret (d, None) /\
     ImageDistance a b = (let! im := ToImage d in Ret (Some im, None))) /\
  (length a <> length b ->
   Distance a b = Ret ([], Some ErrLength) /\
   ImageDistance a b = Ret (None, Some ErrLength)).
Proof.
  assert (Hself : negb (len a =? len a) = false)
    by (rewrite Z.eqb_refl; reflexivity).
  split; intros Hlen.
  - exists (zip_with xor32 a b). split; [apply Distance_eq_len; exact Hlen | ].
    unfold ImageDistance, ToImage. rewrite Hself, (Distance_eq_len a b Hlen).
    cbn [obind fst snd]. reflexivity.
  - split; [apply Distance_neq_len; exact Hlen | ].
    unfold ImageDistance. rewrite Hself, (Distance_neq_len a b Hlen).
    cbn [obind fst snd]. reflexivity.
Qed.

Lemma ImageDistance_is_ToImage_of_Distance_witness :
  (exists d : list Z,
     Distance [1] [2] = Ret (d, None) /\
     ImageDistance [1] [2] = (let! im := ToImage d in Ret (Some im, None))) /\
  (Distance [1] [1; 2] = Ret ([], Some ErrLength) /\
   ImageDistance [1] [1; 2] = Ret (None, Some ErrLength)).
Proof.
  split.
  - apply (proj1 (ImageDistance_is_ToImage_of_Distance [1] [2])). reflexivity.
  - apply (proj2 (ImageDistance_is_ToImage_of_Distance [1] [1; 2])). simpl. lia.
Defined.

(** C9: on two empty fingerprints [Compare] passes the length test and
    returns no error; the accumulated distance is 0 and the divisor
    [len * 32] is 0, so the quotient is zero by zero, a NaN, and so is the
    score. *)
Theorem Compare_empty_zero_by_zero :
  Compare_loop [] 0 [] 0 = Ret 0 /\
  Compare_divisor [] = 0 /\
  of_int (Compare_divisor []) = zero /\
  div (of_int 0) (of_int (Compare_divisor [])) = S754_nan /\
  Compare [] [] = Ret (S754_nan, None).
Proof. repeat split. Qed.

(** C10: for well-formed fingerprints of equal, nonzero length [Compare]
    returns exactly [1.0] if and only if the two are equal element by
    element. *)
Theorem Compare_one_iff_equal (a b : list Z) :
  fingerprint_ok a -> fingerprint_ok b -> length a = length b -> 0 < len a ->
  Compare a b = Ret (one, None) <-> a = b.
Proof.
  intros Ha Hb Hlen Hpos.
  destruct (Compare_total a b Ha Hb Hlen) as [-> Ht].
  pose proof (total_hamming_zero_iff a b (proj1 Ha) (proj1 Hb) Hlen) as Hz.
  destruct Ha as [_ Hla]. unfold max_len in Hla.
  split.
  - intros E. apply Hz.
    destruct (Z.eq_dec (total_hamming a b) 0) as [E0 | Hne]; [exact E0 | ].
    destruct (score_of_pos_dist (total_hamming a b) (32 * len a)) as (_ & _ & Hs);
      [lia | lia | ].
    congruence.
  - intros E. apply Hz in E. rewrite E, score_of_zero_dist by lia. reflexivity.
Qed.

Lemma Compare_one_iff_equal_witness :
  Compare [5; 9] [5; 9] = Ret (one, None) <-> [5; 9] = [5; 9].
Proof.
  apply (Compare_one_iff_equal [5; 9] [5; 9]);
    [ split; [repeat constructor; unfold int32_ok; lia | vm_compute; discriminate]
    | split; [repeat constructor; unfold int32_ok; lia | vm_compute; discriminate]
    | reflexivity
    | reflexivity ].
Defined.

(** ** Further properties of the code *)

(** X1: [Compare] of a nonempty fingerprint (of a length a slice can have)
    with itself returns exactly [1.0] and no error. *)
Theorem Compare_self_nonempty (a : list Z) :
  0 < len a <= max_len -> Compare a a = Ret (one, None).
Proof.
  intros Hlen. rewrite Compare_eq_len by reflexivity.
  rewrite acc_hamming_diag, Compare_divisor_small by lia.
  unfold max_len in Hlen. rewrite score_of_zero_dist by lia. reflexivity.
Qed.

Lemma Compare_self_nonempty_witness : Compare [7; - 3] [7; - 3] = Ret (one, None).
Proof.
  apply (Compare_self_nonempty [7; - 3]). vm_compute. split; [reflexivity | discriminate].
Defined.

(** X2: [Distance] of any fingerprint with itself returns the all-zero vector
    of the same length and no error. *)
Theorem Distance_self (a : list Z) :
  Distance a a = Ret (replicate (length a) 0, None).
Proof.
  rewrite Distance_eq_len by reflexivity. rewrite zip_with_xor32_diag.
  reflexivity.
Qed.

(** X3: on [int32] values whose sign bits agree, [hamming] is the Hamming
    distance of the 32-bit representations. *)
Theorem hamming_same_sign (a b : Z) :
  int32_ok a -> int32_ok b -> (0 <= a <-> 0 <= b) ->
  hamming a b = hamming_spec a b.
Proof.
  intros Ha Hb Hs. apply hamming_nonneg_xor; try assumption.
  apply Z.lxor_nonneg. exact Hs.
Qed.

Lemma hamming_same_sign_witness : hamming (- 5) (- 2 ^ 31) = hamming_spec (- 5) (- 2 ^ 31).
Proof.
  apply (hamming_same_sign (- 5) (- 2 ^ 31)); unfold int32_ok; lia.
Defined.

End Claims.

(** * Further facts about the operations *)

Module XorFacts.
Import GoStrings MachineIntFacts HammingFacts LoopFacts.

(** [hamming] depends on its arguments through [a ^ b] only. *)
Lemma hamming_of_lxor (x y x' y' : Z) :
  int32_ok x -> int32_ok y -> int32_ok x' -> int32_ok y' ->
  Z.lxor x y = Z.lxor x' y' -> hamming x y = hamming x' y'.
Proof.
  intros Hx Hy Hx' Hy' E. rewrite !hamming_lxor by assumption.
  rewrite E. reflexivity.
Qed.

Lemma int32_ok_0 : int32_ok 0.
Proof. unfold int32_ok. lia. Qed.

Lemma lxor_cancel_r (x y : Z) : Z.lxor (Z.lxor x y) y = x.
Proof. rewrite Z.lxor_assoc, Z.lxor_nilpotent, Z.lxor_0_r. reflexivity. Qed.

Lemma lxor_mask (x y k : Z) : Z.lxor (Z.lxor x k) (Z.lxor y k) = Z.lxor x y.
Proof.
  rewrite (Z.lxor_comm y k), Z.lxor_assoc, <- (Z.lxor_assoc k k y).
  rewrite Z.lxor_nilpotent, Z.lxor_0_l. reflexivity.
Qed.

Lemma zip_with_lxor_cancel_r (a : list Z) :
  forall b : list Z,
    length a = length b -> zip_with Z.lxor (zip_with Z.lxor a b) b = a.
Proof.
  induction a as [ | x a IH]; intros [ | y b] Hlen; try discriminate;
    cbn [zip_with]; [reflexivity | ].
  rewrite lxor_cancel_r, IH by (cbn [length] in Hlen; lia). reflexivity.
Qed.

(** The accumulator of [Compare] over [a], [b] is the one over [a ^ b] and
    zeros. *)
Lemma acc_hamming_lxor_zeros (a : list Z) :
  forall (b : list Z) (dist : Z),
    Forall int32_ok a -> Forall int32_ok b -> length a = length b ->
    acc_hamming dist (zip_with Z.lxor a b) (replicate (length a) 0)
    = acc_hamming dist a b.
Proof.
  induction a as [ | x a IH]; intros [ | y b] dist Ha Hb Hlen;
    try discriminate; [reflexivity | ].
  apply Forall_cons in Ha as [Hx Ha]. apply Forall_cons in Hb as [Hy Hb].
  cbn [zip_with length replicate]. rewrite !acc_hamming_cons.
  rewrite (hamming_of_lxor (Z.lxor x y) 0 x y)
    by (auto using lxor_int32_ok, int32_ok_0, Z.lxor_0_r).
  apply IH; auto; cbn [length] in Hlen; lia.
Qed.

(** XOR-ing both fingerprints with one mask leaves the accumulator alone. *)
Lemma acc_hamming_mask (a : list Z) :
  forall (b m : list Z) (dist : Z),
    Forall int32_ok a -> Forall int32_ok b -> Forall int32_ok m ->
    length a = length b -> length a = length m ->
    acc_hamming dist (zip_with Z.lxor a m) (zip_with Z.lxor b m)
    = acc_hamming dist a b.
Proof.
  induction a as [ | x a IH]; intros [ | y b] [ | k m] dist Ha Hb Hm Hab Ham;
    try discriminate; [reflexivity | ].
  apply Forall_cons in Ha as [Hx Ha]. apply Forall_cons in Hb as [Hy Hb].
  apply Forall_cons in Hm as [Hk Hm].
  cbn [zip_with]. rewrite !acc_hamming_cons.
  rewrite (hamming_of_lxor (Z.lxor x k) (Z.lxor y k) x y)
    by (auto using lxor_int32_ok, lxor_mask).
  apply IH; auto; cbn [length] in *; lia.
Qed.

(** The count [hamming] takes is the number of set bits of the magnitude of
    [a ^ b]. *)
Lemma Count_FormatInt2_abs (i : Z) :
  - 2 ^ 31 <= i < 2 ^ 31 -> Count (FormatInt2 i) "1" = popcount32 (Z.abs i).
Proof.
  intros Hi. destruct i as [ | u | u ]; [reflexivity | | ].
  - cbn [FormatInt2 Z.abs]. apply (Count_formatBits2_bits 32). cbn. lia.
  - cbn [FormatInt2 Z.abs Count]. cbn [Ascii.eqb Bool.eqb].
    rewrite Z.add_0_l. apply (Count_formatBits2_bits 32). cbn. lia.
Qed.

End XorFacts.

(** ** The score is never zero

    [hamming] is at most 31 of the 32 bits, so the quotient is at most
    [31/32] and stays below one after rounding. *)

Module ScorePositiveFacts.
Import Float64 Float64Facts.

(** Dividing two normal numbers whose exact quotient is at most [31/32]: the
    rounded quotient is a normal number strictly below one. *)
Lemma div_normal_below_one (md mN : positive) (ed eN : Z) :
  2 ^ 52 <= Zpos md < 2 ^ 53 -> 2 ^ 52 <= Zpos mN < 2 ^ 53 ->
  ed <= eN -> - 900 <= ed - eN ->
  32 * Zpos md <= 31 * (Zpos mN * 2 ^ (eN - ed)) ->
  exists (mq : positive) (eq : Z),
    div (S754_finite false md ed) (S754_finite false mN eN)
    = S754_finite false mq eq /\
    2 ^ 52 <= Zpos mq < 2 ^ 53 /\
    ed - eN - 53 <= eq <= - 52 /\
    Zpos mq < 2 ^ (- eq).
Proof.
  intros Hmd HmN Hle Hlo H31.
  unfold div, SFdiv, SFdiv_core_binary.
  rewrite (Zdigits2_unique (Zpos md) 53), (Zdigits2_unique (Zpos mN) 53)
    by (change (53 - 1) with 52; lia).
  rewrite fexp_normal by lia.
  set (e' := Z.min (53 + ed - (53 + eN) - 53) (ed - eN)).
  assert (He' : e' = ed - eN - 53) by (subst e'; lia).
  clearbody e'. subst e'.
  replace (ed - eN - (ed - eN - 53)) with 53 by lia. cbv iota.
  rewrite Z.shiftl_mul_pow2 by lia.
  destruct (Z.div_eucl (Zpos md * 2 ^ 53) (Zpos mN)) as [q r] eqn:Eqr.
  assert (Hq : q = Zpos md * 2 ^ 53 / Zpos mN)
    by (unfold Z.div; rewrite Eqr; reflexivity).
  clear Eqr. cbn [xorb].
  set (ee := ed - eN - 53) in *.
  assert (Hq1 : 2 ^ 52 <= q) by (subst q; apply Z.div_le_lower_bound; lia).
  assert (Hq2 : q < 2 ^ 54) by (subst q; apply Z.div_lt_upper_bound; lia).
  set (P := 2 ^ (- ee - 6)).
  assert (HP : 2 ^ 47 <= P) by (apply Z.pow_le_mono_r; lia).
  assert (E0 : 2 ^ (- ee) = 64 * P).
  { replace (- ee) with (6 + (- ee - 6)) by lia.
    rewrite Z.pow_add_r by lia. reflexivity. }
  assert (E1 : 2 ^ (- ee - 1) = 32 * P).
  { replace (- ee - 1) with (5 + (- ee - 6)) by lia.
    rewrite Z.pow_add_r by lia. reflexivity. }
  assert (E2 : 2 ^ (- ee - 2) = 16 * P).
  { replace (- ee - 2) with (4 + (- ee - 6)) by lia.
    rewrite Z.pow_add_r by lia. reflexivity. }
  assert (Hq3 : q <= 62 * P).
  { assert (Hmul : Zpos mN * q <= Zpos md * 2 ^ 53)
      by (subst q; apply Z.mul_div_le; lia).
    assert (Hs : 2 ^ (eN - ed) * 2 ^ 53 = 64 * P).
    { rewrite <- Z.pow_add_r by lia. rewrite <- E0. f_equal. lia. }
    nia. }
  assert (Hcase : q < 2 ^ 53 \/ 2 ^ 53 <= q) by lia.
  destruct Hcase as [Hs | Hl].
  - destruct (binary_round_aux_normal false q ee (new_location (Zpos mN) r) 0)
      as (m & e & -> & Hm & He & [_ Hv] & _);
      [lia | change (52 + 0) with 52; change (53 + 0) with 53; lia
      | lia | lia | ].
    rewrite Z.pow_0_r, Z.div_1_r in Hv.
    assert (Hb : Zpos m < 2 ^ (- e)).
    { assert (Hd : e = ee + 0 \/ e = ee + 0 + 1) by lia.
      destruct Hd as [-> | ->].
      - replace (ee + 0 - ee - 0) with 0 in Hv by lia.
        replace (- (ee + 0)) with (- ee) by lia. lia.
      - replace (ee + 0 + 1 - ee - 0) with 1 in Hv by lia.
        replace (- (ee + 0 + 1)) with (- ee - 1) by lia. lia. }
    exists m, e. split; [reflexivity | ]. split; [exact Hm | ].
    split; [ | exact Hb].
    assert (52 < - e) by (apply pow2_lt_inv; lia). lia.
  - destruct (binary_round_aux_normal false q ee (new_location (Zpos mN) r) 1)
      as (m & e & -> & Hm & He & [_ Hv] & _);
      [lia | change (52 + 1) with 53; change (53 + 1) with 54; lia
      | lia | lia | ].
    assert (Hq4 : q / 2 ^ 1 <= 31 * P).
    { change (2 ^ 1) with 2. Z.div_mod_to_equations. lia. }
    assert (Hb : Zpos m < 2 ^ (- e)).
    { assert (Hd : e = ee + 1 \/ e = ee + 1 + 1) by lia.
      destruct Hd as [-> | ->].
      - replace (ee + 1 - ee - 1) with 0 in Hv by lia.
        replace (- (ee + 1)) with (- ee - 1) by lia. lia.
      - replace (ee + 1 + 1 - ee - 1) with 1 in Hv by lia.
        replace (- (ee + 1 + 1)) with (- ee - 2) by lia. lia. }
    exists m, e. split; [reflexivity | ]. split; [exact Hm | ].
    split; [ | exact Hb].
    assert (52 < - e) by (apply pow2_lt_inv; lia). lia.
Qed.

(** Subtracting from one a normal number strictly below one gives a
    positive normal number. *)
Lemma sub_one_positive (mq : positive) (eq : Z) :
  2 ^ 52 <= Zpos mq < 2 ^ 53 -> - 104 <= eq <= - 52 ->
  Zpos mq < 2 ^ (- eq) ->
  exists (m : positive) (e : Z),
    sub one (S754_finite false mq eq) = S754_finite false m e.
Proof.
  intros Hmq Heq Hlt.
  unfold sub, one, SFsub.
  rewrite Z.min_r by lia.
  destruct (shl_align_spec (2 ^ 52) (- 52) eq) as (q1 & -> & Hq1); [lia | ].
  rewrite shl_align_id by lia. cbn [fst cond_Zopp].
  change (Zpos (2 ^ 52)) with (2 ^ 52) in Hq1.
  rewrite <- Z.pow_add_r in Hq1 by lia.
  replace (52 + (- 52 - eq)) with (- eq) in Hq1 by lia.
  destruct (Zpos q1 - Zpos mq) as [ | p | p ] eqn:EM; [lia | | lia].
  cbn [binary_normalize].
  destruct (digits_spec (Zpos p)) as (k & Hk & Hp); [lia | ].
  assert (Hk2 : k <= - eq).
  { assert (k - 1 < - eq) by (apply pow2_lt_inv; lia). lia. }
  destruct (binary_round_normal false p eq k) as (m & e & -> & _); try lia.
  exists m, e. reflexivity.
Qed.

(** The score [1 - float64(d) / float64(N)] for [32 * d <= 31 * N] is
    strictly positive. *)
Lemma score_of_positive (d N : Z) :
  0 <= d -> 32 * d <= 31 * N -> 0 < N <= 2 ^ 51 ->
  SFltb zero (score_of d N) = true.
Proof.
  intros Hd H31 HN. unfold score_of.
  destruct (Z.eq_dec d 0) as [-> | Hne].
  - rewrite score_zero_dist by lia. reflexivity.
  - destruct (digits_spec N) as (kN & HkN & HbN); [lia | ].
    destruct (digits_spec d) as (kd & Hkd & Hbd); [lia | ].
    assert (kN - 1 < 52) by (apply pow2_lt_inv; lia).
    assert (kd - 1 < kN) by (apply pow2_lt_inv; lia).
    destruct (of_int_exact N kN) as (mN & -> & HmN & HvN); [lia | exact HbN | ].
    destruct (of_int_exact d kd) as (md & -> & Hmd & Hvd); [lia | exact Hbd | ].
    destruct (div_normal_below_one md mN (kd - 53) (kN - 53))
      as (mq & eq & -> & Hmq & Heq & Hq); try lia.
    { rewrite HvN, Hvd, <- Z.mul_assoc, <- Z.pow_add_r by lia.
      replace (53 - kN + (kN - 53 - (kd - 53))) with (53 - kd) by lia.
      assert (0 < 2 ^ (53 - kd)) by (apply Z.pow_pos_nonneg; lia). nia. }
    rewrite of_int_1.
    destruct (sub_one_positive mq eq) as (m & e & ->); [lia | lia | exact Hq | ].
    reflexivity.
Qed.

End ScorePositiveFacts.

(** ** Bits of an [int32] and the pixels that show them *)

Module BitFacts.
Import MachineIntFacts LoopFacts.

(** Above bit 31 an [int32] repeats its sign bit. *)
Lemma int32_high_bits (x j : Z) :
  int32_ok x -> 31 <= j -> Z.testbit x j = Z.testbit x 31.
Proof.
  intros Hx Hj. apply int32_ok_shiftr in Hx.
  replace j with (j - 31 + 31) by lia. change 31 with (0 + 31) at 3.
  rewrite <- !Z.shiftr_spec by lia.
  destruct Hx as [-> | ->].
  - rewrite !Z.testbit_0_l. reflexivity.
  - rewrite !Z.bits_m1 by lia. reflexivity.
Qed.

(** Two [int32] values with the same 32 low bits are equal. *)
Lemma int32_eq_bits (x y : Z) :
  int32_ok x -> int32_ok y ->
  (forall j, 0 <= j < 32 -> Z.testbit x j = Z.testbit y j) -> x = y.
Proof.
  intros Hx Hy Hbits. apply Z.bits_inj'. intros n Hn.
  destruct (Z_lt_le_dec n 32) as [Hlt | Hge]; [apply Hbits; lia | ].
  rewrite (int32_high_bits x n), (int32_high_bits y n) by (auto; lia).
  apply Hbits. lia.
Qed.

Lemma gray_of_bit_inj (b b' : bool) : gray_of_bit b = gray_of_bit b' -> b = b'.
Proof. destruct b, b'; cbn; intros E; try reflexivity; discriminate. Qed.

Lemma fingerprint_ok_lookup (f : list Z) (i : nat) (x : Z) :
  fingerprint_ok f -> f !! i = Some x -> int32_ok x.
Proof. intros [Hok _] Hi. exact (Forall_lookup_1 _ _ _ _ Hok Hi). Qed.

(** The vector [Distance] returns for well-formed fingerprints is one. *)
Lemma zip_with_lxor_ok (a b : list Z) :
  fingerprint_ok a -> fingerprint_ok b -> length a = length b ->
  fingerprint_ok (zip_with Z.lxor a b) /\
  length (zip_with Z.lxor a b) = length a.
Proof.
  intros [Ha Hla] [Hb _] Hlen.
  assert (Hl : length (zip_with Z.lxor a b) = length a)
    by (rewrite length_zip_with; lia).
  split; [ | exact Hl]. split.
  - apply (zip_with_xor32_lxor a b Ha Hb).
  - unfold len in *. rewrite Hl. exact Hla.
Qed.

Lemma Zsum_app (l k : list Z) : Zsum (l ++ k) = Zsum l + Zsum k.
Proof.
  unfold Zsum. induction l as [ | x l IH]; cbn [app foldr]; [lia | ].
  rewrite IH. lia.
Qed.

(** The total of [hamming] does not depend on the order of the elements. *)
Lemma total_hamming_reverse (a : list Z) :
  forall b : list Z,
    length a = length b ->
    total_hamming (reverse a) (reverse b) = total_hamming a b.
Proof.
  induction a as [ | x a IH]; intros [ | y b] Hlen; try discriminate;
    [reflexivity | ].
  cbn [length] in Hlen. rewrite !reverse_cons, total_hamming_cons.
  unfold total_hamming in *.
  rewrite zip_with_app by (rewrite !length_reverse; lia).
  rewrite Zsum_app, IH by lia. cbn. lia.
Qed.

Lemma fingerprint_ok_reverse (a : list Z) :
  fingerprint_ok a -> fingerprint_ok (reverse a).
Proof.
  intros [Ha Hl]. split; [apply Forall_reverse; exact Ha | ].
  unfold len in *. rewrite length_reverse. exact Hl.
Qed.

End BitFacts.

(** ** Counting the white pixels *)

Module CountFacts.
Import GoImage MachineIntFacts HammingFacts LoopFacts ImageFacts BitFacts.

Lemma white_pixels_eq (im : Gray) : white_pixels im = Zsum (is_white <$> Pix im).
Proof. reflexivity. Qed.

Lemma is_white_gray_of_bit (b : bool) : is_white (gray_of_bit b) = Z.b2z b.
Proof. destruct b; reflexivity. Qed.

(** Overwriting one cell changes the count by what the cell gains. *)
Lemma count_insert (l : list Z) :
  forall (k : nat) (old v : Z),
    l !! k = Some old ->
    Zsum (is_white <$> <[k := v]> l)
    = Zsum (is_white <$> l) - is_white old + is_white v.
Proof.
  induction l as [ | x l IH]; intros [ | k] old v Hk; try discriminate.
  - injection Hk as ->.
    change (<[0%nat := v]> (old :: l)) with (v :: l).
    rewrite !fmap_cons. unfold Zsum. cbn [foldr]. lia.
  - change (<[S k := v]> (x :: l)) with (x :: <[k := v]> l).
    rewrite !fmap_cons. unfold Zsum in *. cbn [foldr].
    rewrite (IH k old v Hk). lia.
Qed.

Lemma count_replicate_black (n : nat) : Zsum (is_white <$> replicate n 0) = 0.
Proof. induction n as [ | n IH]; [reflexivity | exact IH]. Qed.

(** The inner loop on a column whose rows [j .. 31] are still black adds the
    number of set bits it renders. *)
Lemma column_loop_count (N i : Z) :
  0 <= i < N -> 32 * N < 2 ^ 63 ->
  forall (n : nat) (j sub : Z) (im : Gray),
    wf_image N im -> int32_ok sub -> 0 <= j -> j + Z.of_nat n = 32 ->
    (forall j', j <= j' < 32 -> Pix im !! offset N i j' = Some black) ->
    exists im',
      column_loop n i j sub im = Ret im' /\
      white_pixels im'
      = white_pixels im
        + Zsum ((fun k => Z.b2z (Z.testbit sub k)) <$> seqZ 0 (Z.of_nat n)).
Proof.
  intros Hi Hb. induction n as [ | n IH]; intros j sub im Hwf Hsub Hj Hn Hblack;
    cbn [column_loop].
  - exists im. split; [reflexivity | ]. rewrite seqZ_nil by lia.
    change (Zsum _) with 0. lia.
  - destruct (Set_wf N im i j (uint8 (uint8 (and32 sub 1) * 255)) Hwf)
      as (im1 & -> & Hwf1 & HP1); [lia | lia | exact Hb | ].
    cbn [obind]. rewrite gray_of_low_bit in HP1.
    destruct (shr32_1 sub Hsub) as [Hsub1 _].
    rewrite (int_small (j + 1)) by lia.
    destruct (IH (j + 1) (shr32 sub 1) im1 Hwf1 Hsub1) as (im' & -> & Hcnt);
      [lia | lia | | ].
    { intros j' Hj'. rewrite HP1, list_lookup_insert_ne; [apply Hblack; lia | ].
      intros E. apply offset_inj in E; lia. }
    exists im'. split; [reflexivity | ].
    rewrite Hcnt, (white_pixels_eq im1), HP1.
    rewrite (count_insert _ _ black) by (apply Hblack; lia).
    rewrite is_white_gray_of_bit, <- white_pixels_eq.
    rewrite Nat2Z.inj_succ, bits_sum_succ by lia.
    unfold shr32. rewrite int32_small, Z.div2_spec.
    + change (is_white black) with 0. lia.
    + unfold int32_ok in *. rewrite Z.shiftr_div_pow2 by lia.
      change (2 ^ 1) with 2. Z.div_mod_to_equations. lia.
Qed.

(** The outer loop on a buffer whose columns [i ..] are still black adds the
    set bits of the elements it renders. *)
Lemma image_loop_count (N : Z) :
  32 * N < 2 ^ 63 ->
  forall (rest : list Z) (i : Z) (im : Gray),
    wf_image N im -> Forall int32_ok rest -> 0 <= i -> i + len rest = N ->
    (forall i' j', i <= i' < N -> 0 <= j' < 32 ->
                   Pix im !! offset N i' j' = Some black) ->
    exists im',
      image_loop i rest im = Ret im' /\
      white_pixels im' = white_pixels im + Zsum (popcount32 <$> rest).
Proof.
  intros Hb. induction rest as [ | sub rest IH]; intros i im Hwf Hok Hi HN Hblack;
    cbn [image_loop].
  - exists im. split; [reflexivity | ]. cbn. lia.
  - rewrite len_cons in HN. pose proof (len_nonneg rest) as Hr.
    apply Forall_cons in Hok as [Hsub Hok].
    destruct (column_loop_count N i ltac:(lia) Hb (Z.to_nat bitsperint) 0 sub im Hwf Hsub)
      as (im1 & E1 & Hcnt1); [lia | reflexivity | intros j' Hj'; apply Hblack; lia | ].
    destruct (column_loop_spec N i ltac:(lia) Hb (Z.to_nat bitsperint) 0 sub im Hwf Hsub)
      as (im1' & E1' & Hwf1 & Hfr1 & _); [lia | reflexivity | ].
    assert (im1' = im1) by congruence. subst im1'.
    rewrite E1. cbn [obind].
    destruct (IH (i + 1) im1 Hwf1 Hok) as (im' & -> & Hcnt); [lia | lia | | ].
    { intros i' j' Hi' Hj'. rewrite Hfr1; [apply Hblack; lia | ].
      intros j2 Hj2 E. apply offset_inj in E; lia. }
    exists im'. split; [reflexivity | ].
    rewrite Hcnt, Hcnt1. cbn [fmap list_fmap Zsum foldr].
    change (foldr Z.add 0) with Zsum. unfold popcount32 at 2.
    change (Z.of_nat (Z.to_nat bitsperint)) with 32. lia.
Qed.

Lemma int32ToImage_count (s : list Z) :
  fingerprint_ok s ->
  exists im,
    int32ToImage s = Ret im /\ white_pixels im = Zsum (popcount32 <$> s).
Proof.
  intros [Hok Hlen]. unfold max_len in Hlen. pose proof (len_nonneg s) as H0.
  unfold int32ToImage. rewrite Rect_frame by exact H0.
  unfold NewGray, Dx, Dy, frame. cbn [MaxX MinX MaxY MinY].
  rewrite Z.sub_0_r, (int_small (len s)) by lia.
  rewrite Z.mul_1_l, (int_small (len s)) by lia.
  change (int (32 - 0)) with 32.
  rewrite (int_small (len s * 32)) by lia.
  destruct (Z.ltb_spec (len s * 32) 0) as [Hneg | _]; [lia | ].
  cbn [obind].
  set (im0 := {| Pix := replicate (Z.to_nat (len s * 32)) 0;
                 Stride := len s;
                 Bounds := {| MinX := 0; MinY := 0; MaxX := len s; MaxY := 32 |} |}).
  assert (Hwf0 : wf_image (len s) im0).
  { unfold wf_image, len. cbn [Pix Stride Bounds im0].
    rewrite length_replicate. split; [reflexivity | ].
    split; [reflexivity | unfold len in *; lia]. }
  destruct (image_loop_count (len s) ltac:(lia) s 0 im0 Hwf0 Hok)
    as (im & -> & Hcnt); [lia | lia | | ].
  { intros i' j' Hi' Hj'. cbn [Pix im0]. apply lookup_replicate_2.
    unfold offset. nia. }
  exists im. split; [reflexivity | ].
  rewrite Hcnt, (white_pixels_eq im0). cbn [Pix im0].
  rewrite count_replicate_black. lia.
Qed.

Lemma fmap_popcount32_lxor (a : list Z) :
  forall b : list Z,
    popcount32 <$> zip_with Z.lxor a b = zip_with hamming_spec a b.
Proof.
  induction a as [ | x a IH]; intros [ | y b]; try reflexivity.
  cbn [zip_with]. rewrite fmap_cons, IH. reflexivity.
Qed.

End CountFacts.

(** * Further properties of the operations *)

Section Extras.
Import Float64 MachineIntFacts HammingFacts LoopFacts ImageFacts ScoreFacts.
Import XorFacts ScorePositiveFacts BitFacts.

(** X4: on [int32] values [hamming a b] is the number of set bits of the
    magnitude [|a ^ b|], whatever the signs. *)
Theorem hamming_counts_magnitude (a b : Z) :
  int32_ok a -> int32_ok b ->
  hamming a b = popcount32 (Z.abs (Z.lxor a b)).
Proof.
  intros Ha Hb. rewrite hamming_lxor by assumption.
  apply Count_FormatInt2_abs. exact (lxor_int32_ok a b Ha Hb).
Qed.

Lemma hamming_counts_magnitude_witness :
  hamming 6 (- 3) = popcount32 (Z.abs (Z.lxor 6 (- 3))).
Proof. apply (hamming_counts_magnitude 6 (- 3)); unfold int32_ok; lia. Defined.

(** X5: for well-formed fingerprints of equal, nonzero length the score of
    [Compare] is strictly positive: it is never zero, also when the two
    differ in every bit. *)
Theorem Compare_score_positive (a b : list Z) :
  fingerprint_ok a -> fingerprint_ok b -> length a = length b -> 0 < len a ->
  exists s : float64, Compare a b = Ret (s, None) /\ SFltb zero s = true.
Proof.
  intros Ha Hb Hlen Hpos.
  destruct (Compare_total a b Ha Hb Hlen) as [-> Ht].
  destruct Ha as [_ Hla]. unfold max_len in Hla.
  eexists. split; [reflexivity | ].
  apply score_of_positive; lia.
Qed.

Lemma Compare_score_positive_witness :
  exists s : float64,
    Compare [0; - 1] [- 1; 0] = Ret (s, None) /\ SFltb zero s = true.
Proof.
  apply (Compare_score_positive [0; - 1] [- 1; 0]);
    [ split; [repeat constructor; unfold int32_ok; lia | vm_compute; discriminate]
    | split; [repeat constructor; unfold int32_ok; lia | vm_compute; discriminate]
    | reflexivity
    | reflexivity ].
Defined.

(** X6: [Distance] undoes itself: for [int32] fingerprints of equal length,
    the distance of [Distance(a, b)] and [b] is [a] again. *)
Theorem Distance_involution (a b : list Z) :
  Forall int32_ok a -> Forall int32_ok b -> length a = length b ->
  exists d : list Z,
    Distance a b = Ret (d, None) /\ Distance d b = Ret (a, None).
Proof.
  intros Ha Hb Hlen. exists (zip_with Z.lxor a b).
  destruct (zip_with_xor32_lxor a b Ha Hb) as [Eab Hd].
  assert (Hl : length (zip_with Z.lxor a b) = length b)
    by (rewrite length_zip_with; lia).
  split.
  - rewrite Distance_eq_len by exact Hlen. rewrite Eab. reflexivity.
  - rewrite Distance_eq_len by exact Hl.
    destruct (zip_with_xor32_lxor (zip_with Z.lxor a b) b Hd Hb) as [-> _].
    rewrite zip_with_lxor_cancel_r by exact Hlen. reflexivity.
Qed.

Lemma Distance_involution_witness :
  exists d : list Z,
    Distance [5; - 9] [- 1; 12] = Ret (d, None) /\
    Distance d [- 1; 12] = Ret ([5; - 9], None).
Proof.
  apply (Distance_involution [5; - 9] [- 1; 12]);
    try reflexivity; repeat constructor; unfold int32_ok; lia.
Defined.

(** X7: the vector [Distance] returns for well-formed fingerprints of equal
    length is a well-formed fingerprint of that length, so it can be compared
    or rendered in turn. *)
Theorem Distance_well_formed (a b : list Z) :
  fingerprint_ok a -> fingerprint_ok b -> length a = length b ->
  exists d : list Z,
    Distance a b = Ret (d, None) /\ fingerprint_ok d /\ length d = length a.
Proof.
  intros Ha Hb Hlen. exists (zip_with Z.lxor a b).
  destruct (zip_with_xor32_lxor a b (proj1 Ha) (proj1 Hb)) as [Eab _].
  split; [rewrite Distance_eq_len by exact Hlen; rewrite Eab; reflexivity | ].
  apply zip_with_lxor_ok; assumption.
Qed.

Lemma Distance_well_formed_witness :
  exists d : list Z,
    Distance [5; - 9] [- 1; 12] = Ret (d, None) /\
    fingerprint_ok d /\ length d = length [5; - 9].
Proof.
  apply (Distance_well_formed [5; - 9] [- 1; 12]);
    [ split; [repeat constructor; unfold int32_ok; lia | vm_compute; discriminate]
    | split; [repeat constructor; unfold int32_ok; lia | vm_compute; discriminate]
    | reflexivity ].
Defined.

(** X8: [Compare] sees its arguments through their XOR only: comparing
    [Distance(a, b)] with the all-zero fingerprint gives the result of
    comparing [a] with [b]. *)
Theorem Compare_of_Distance (a b : list Z) :
  Forall int32_ok a -> Forall int32_ok b -> length a = length b ->
  exists d : list Z,
    Distance a b = Ret (d, None) /\
    Compare d (replicate (length a) 0) = Compare a b.
Proof.
  intros Ha Hb Hlen. exists (zip_with Z.lxor a b).
  destruct (zip_with_xor32_lxor a b Ha Hb) as [Eab _].
  assert (Hl : length (zip_with Z.lxor a b) = length a)
    by (rewrite length_zip_with; lia).
  split; [rewrite Distance_eq_len by exact Hlen; rewrite Eab; reflexivity | ].
  rewrite (Compare_eq_len a b) by exact Hlen.
  rewrite Compare_eq_len by (rewrite length_replicate; exact Hl).
  rewrite acc_hamming_lxor_zeros by assumption.
  unfold Compare_divisor, len. rewrite Hl. reflexivity.
Qed.

Lemma Compare_of_Distance_witness :
  exists d : list Z,
    Distance [5; - 9] [- 1; 12] = Ret (d, None) /\
    Compare d (replicate (length [5; - 9]) 0) = Compare [5; - 9] [- 1; 12].
Proof.
  apply (Compare_of_Distance [5; - 9] [- 1; 12]);
    try reflexivity; repeat constructor; unfold int32_ok; lia.
Defined.

(** X9: XOR-ing both fingerprints with one and the same mask does not change
    the result of [Compare]. *)
Theorem Compare_xor_mask (a b m : list Z) :
  Forall int32_ok a -> Forall int32_ok b -> Forall int32_ok m ->
  length a = length b -> length a = length m ->
  exists a' b' : list Z,
    Distance a m = Ret (a', None) /\ Distance b m = Ret (b', None) /\
    Compare a' b' = Compare a b.
Proof.
  intros Ha Hb Hm Hab Ham.
  exists (zip_with Z.lxor a m), (zip_with Z.lxor b m).
  destruct (zip_with_xor32_lxor a m Ha Hm) as [Eam _].
  destruct (zip_with_xor32_lxor b m Hb Hm) as [Ebm _].
  assert (Hla : length (zip_with Z.lxor a m) = length a)
    by (rewrite length_zip_with; lia).
  assert (Hlb : length (zip_with Z.lxor b m) = length a)
    by (rewrite length_zip_with; lia).
  split; [rewrite Distance_eq_len by exact Ham; rewrite Eam; reflexivity | ].
  split; [rewrite Distance_eq_len by lia; rewrite Ebm; reflexivity | ].
  rewrite (Compare_eq_len a b) by exact Hab.
  rewrite Compare_eq_len by lia.
  rewrite acc_hamming_mask by assumption.
  unfold Compare_divisor, len. rewrite Hla. reflexivity.
Qed.

Lemma Compare_xor_mask_witness :
  exists a' b' : list Z,
    Distance [5; - 9] [7; - 1] = Ret (a', None) /\
    Distance [- 1; 12] [7; - 1] = Ret (b', None) /\
    Compare a' b' = Compare [5; - 9] [- 1; 12].
Proof.
  apply (Compare_xor_mask [5; - 9] [- 1; 12] [7; - 1]);
    try reflexivity; repeat constructor; unfold int32_ok; lia.
Defined.

(** X10: for well-formed fingerprints of equal length [ImageDistance]
    returns an image, [len] wide and 32 high, in which the pixel at column
    [i], row [j] is white when bit [j] of [a[i]] and of [b[i]] differ and
    black when they agree, the sign bit (row 31) included. *)
Theorem ImageDistance_pixels (a b : list Z) :
  fingerprint_ok a -> fingerprint_ok b -> length a = length b ->
  exists im : GoImage.Gray,
    ImageDistance a b = Ret (Some im, None) /\
    GoImage.Bounds im = frame (len a) /\
    forall (i : nat) (x y j : Z),
      a !! i = Some x -> b !! i = Some y -> 0 <= j < 32 ->
      GoImage.At im (Z.of_nat i) j
      = Ret (gray_of_bit (xorb (Z.testbit x j) (Z.testbit y j))).
Proof.
  intros Ha Hb Hlen.
  destruct (zip_with_lxor_ok a b Ha Hb Hlen) as [Hd Hld].
  destruct (zip_with_xor32_lxor a b (proj1 Ha) (proj1 Hb)) as [Eab _].
  destruct (int32ToImage_spec _ Hd) as (im & E & Hwf & Hpix).
  assert (Hlen' : len (zip_with Z.lxor a b) = len a)
    by (unfold len; rewrite Hld; reflexivity).
  rewrite Hlen' in Hwf, Hpix.
  exists im. split.
  - unfold ImageDistance. rewrite Z.eqb_refl. cbn [negb].
    rewrite (Distance_eq_len a b Hlen), Eab. cbn [obind fst snd].
    rewrite E. reflexivity.
  - pose proof Hwf as (_ & HB & _). split; [exact HB | ].
    intros i x y j Hx Hy Hj.
    destruct Ha as [_ Hla]. unfold max_len in Hla.
    pose proof (lookup_lt_Some _ _ _ Hx) as Hi. unfold len in Hla.
    apply (At_wf (len a)); unfold len; try lia; [exact Hwf | ].
    rewrite <- Z.lxor_spec. apply Hpix; [ | exact Hj].
    rewrite lookup_zip_with, Hx, Hy. reflexivity.
Qed.

Lemma ImageDistance_pixels_witness :
  exists im : GoImage.Gray,
    ImageDistance [5; - 9] [- 1; 12] = Ret (Some im, None) /\
    GoImage.Bounds im = frame (len [5; - 9]) /\
    forall (i : nat) (x y j : Z),
      [5; - 9] !! i = Some x -> [- 1; 12] !! i = Some y -> 0 <= j < 32 ->
      GoImage.At im (Z.of_nat i) j
      = Ret (gray_of_bit (xorb (Z.testbit x j) (Z.testbit y j))).
Proof.
  apply (ImageDistance_pixels [5; - 9] [- 1; 12]);
    [ split; [repeat constructor; unfold int32_ok; lia | vm_compute; discriminate]
    | split; [repeat constructor; unfold int32_ok; lia | vm_compute; discriminate]
    | reflexivity ].
Defined.

(** X11: [ToImage] loses nothing: two well-formed fingerprints with the same
    image are the same fingerprint. *)
Theorem ToImage_injective (f g : list Z) :
  fingerprint_ok f -> fingerprint_ok g -> ToImage f = ToImage g -> f = g.
Proof.
  intros Hf Hg E.
  destruct (int32ToImage_spec f Hf) as (imf & Ef & Hwf & Hpf).
  destruct (int32ToImage_spec g Hg) as (img & Eg & Hwg & Hpg).
  assert (Eim : Ret imf = Ret img).
  { transitivity (ToImage f); [symmetry; exact Ef | ].
    transitivity (ToImage g); [exact E | exact Eg]. }
  injection Eim as <-.
  assert (Hlen : len f = len g).
  { destruct Hwf as (HS & _). destruct Hwg as (HS' & _).
    rewrite <- HS. exact HS'. }
  rewrite <- Hlen in Hpg.
  apply (list_eq_same_length f g (length f));
    [unfold len in Hlen; lia | reflexivity | ].
  intros i x y _ Hx Hy.
  apply int32_eq_bits;
    [exact (fingerprint_ok_lookup f i x Hf Hx)
    | exact (fingerprint_ok_lookup g i y Hg Hy) | ].
  intros j Hj. apply gray_of_bit_inj.
  pose proof (Hpf i x j Hx Hj) as H1. pose proof (Hpg i y j Hy Hj) as H2.
  rewrite H1 in H2. injection H2 as H2. exact H2.
Qed.

Lemma ToImage_injective_witness : [5; - 9] = [5; - 9].
Proof.
  apply (ToImage_injective [5; - 9] [5; - 9]);
    [ split; [repeat constructor; unfold int32_ok; lia | vm_compute; discriminate]
    | split; [repeat constructor; unfold int32_ok; lia | vm_compute; discriminate]
    | reflexivity ].
Defined.

(** X12: the score does not depend on the order of the elements: reversing
    both well-formed fingerprints of equal length leaves the result of
    [Compare] unchanged. *)
Theorem Compare_reverse (a b : list Z) :
  fingerprint_ok a -> fingerprint_ok b -> length a = length b ->
  Compare (reverse a) (reverse b) = Compare a b.
Proof.
  intros Ha Hb Hlen.
  destruct (Compare_total a b Ha Hb Hlen) as [-> _].
  destruct (Compare_total (reverse a) (reverse b)) as [-> _];
    [apply fingerprint_ok_reverse; exact Ha
    | apply fingerprint_ok_reverse; exact Hb
    | rewrite !length_reverse; exact Hlen | ].
  rewrite total_hamming_reverse by exact Hlen.
  unfold len. rewrite length_reverse. reflexivity.
Qed.

Lemma Compare_reverse_witness :
  Compare (reverse [5; - 9; 3]) (reverse [- 1; 12; 3]) = Compare [5; - 9; 3] [- 1; 12; 3].
Proof.
  apply (Compare_reverse [5; - 9; 3] [- 1; 12; 3]);
    [ split; [repeat constructor; unfold int32_ok; lia | vm_compute; discriminate]
    | split; [repeat constructor; unfold int32_ok; lia | vm_compute; discriminate]
    | reflexivity ].
Defined.

(** X13: the image of a well-formed fingerprint has as many white pixels as
    its elements have set bits among their 32. *)
Theorem ToImage_white_pixels (f : list Z) :
  fingerprint_ok f ->
  exists im : GoImage.Gray,
    ToImage f = Ret im /\ white_pixels im = Zsum (popcount32 <$> f).
Proof. intros Hf. exact (CountFacts.int32ToImage_count f Hf). Qed.

Lemma ToImage_white_pixels_witness :
  exists im : GoImage.Gray,
    ToImage [5; - 1] = Ret im /\ white_pixels im = Zsum (popcount32 <$> [5; - 1]).
Proof.
  apply (ToImage_white_pixels [5; - 1]).
  split; [repeat constructor; unfold int32_ok; lia | vm_compute; discriminate].
Defined.

(** X14: for well-formed fingerprints of equal length the number of white
    pixels of [ImageDistance(a, b)] is the Hamming distance of the
    specification: the differing bits among the 32 of each pair, summed. *)
Theorem ImageDistance_white_pixels (a b : list Z) :
  fingerprint_ok a -> fingerprint_ok b -> length a = length b ->
  exists im : GoImage.Gray,
    ImageDistance a b = Ret (Some im, None) /\
    white_pixels im = Zsum (zip_with hamming_spec a b).
Proof.
  intros Ha Hb Hlen.
  destruct (zip_with_lxor_ok a b Ha Hb Hlen) as [Hd _].
  destruct (zip_with_xor32_lxor a b (proj1 Ha) (proj1 Hb)) as [Eab _].
  destruct (CountFacts.int32ToImage_count _ Hd) as (im & E & Hcnt).
  exists im. split.
  - unfold ImageDistance. rewrite Z.eqb_refl. cbn [negb].
    rewrite (Distance_eq_len a b Hlen), Eab. cbn [obind fst snd].
    rewrite E. reflexivity.
  - rewrite Hcnt, CountFacts.fmap_popcount32_lxor. reflexivity.
Qed.

Lemma ImageDistance_white_pixels_witness :
  exists im : GoImage.Gray,
    ImageDistance [0; 6] [- 1; 3] = Ret (Some im, None) /\
    white_pixels im = Zsum (zip_with hamming_spec [0; 6] [- 1; 3]).
Proof.
  apply (ImageDistance_white_pixels [0; 6] [- 1; 3]);
    [ split; [repeat constructor; unfold int32_ok; lia | vm_compute; discriminate]
    | split; [repeat constructor; unfold int32_ok; lia | vm_compute; discriminate]
    | reflexivity ].
Defined.

End Extras.
